(** * Dynamic Speech Trimmer: the processing helpers of [audioProcessor.js]

    A shallow embedding of the signal pipeline
    downmix -> silence segmentation -> merge -> crossfade stitch -> WAV encode
    and the properties its specification states about it.

    Conventions of the embedding.
    - A JS number holding an index, a count or a sample rate is a [Z].
    - A finite sample (an element of a [Float32Array]) is a rational [Q];
      NaN and the infinities are outside the model.  Comparisons, [Math.abs],
      [Math.min]/[Math.max] and the scaling of a binary32 value by [0x7fff] or
      [0x8000] are exact in IEEE arithmetic and are written with the exact
      operations of [Q].  Every other floating-point operation goes through
      the rounding operators of the class [Rounding]: [fl] rounds the real
      result of one binary64 operation (or of a decimal literal), [fround]
      rounds a value stored into a [Float32Array].
    - Operations of the platform that throw, or that read outside an array,
      return an [outcome]. *)

From Stdlib Require Import ZArith QArith Qround Qabs Qminmax.
From Stdlib Require Import List Bool String Ascii Lia Lqa.
Import ListNotations.

Local Open Scope Z_scope.

(* ------------------------------------------------------------------ *)
(** ** Outcomes of platform operations *)

Inductive fault : Type :=
| RangeError      (* thrown by a typed-array constructor, [set] or a DataView setter *)
| UndefinedRead.  (* an index outside the array was read: the value is
                     [undefined], arithmetic on it is NaN *)

Inductive outcome (A : Type) : Type :=
| Done (a : A)
| Fault (f : fault).

Arguments Done {A} a.
Arguments Fault {A} f.

Definition bind {A B : Type} (c : outcome A) (k : A -> outcome B) : outcome B :=
  match c with
  | Done a => k a
  | Fault f => Fault f
  end.

Notation "x <- c ;; k" := (bind c (fun x => k))
  (at level 61, c at next level, right associativity).
Notation "' pat <- c ;; k" := (bind c (fun x => match x with pat => k end))
  (at level 61, pat pattern, c at next level, right associativity).

(* ------------------------------------------------------------------ *)
(** ** Floating-point rounding *)

Class Rounding : Type := {
  fl : Q -> Q;
  fround : Q -> Q
}.

(** Exact arithmetic: nothing is rounded. *)
Definition exact_arith : Rounding := {| fl := fun q => q; fround := fun q => q |}.

(** Facts of IEEE 754 round-to-nearest used by the amplitude bound of the
    stitcher: rounding is monotone and odd, keeps values that are already
    rounded, keeps 0 and 1, and a fade-in weight and its rounded complement
    never sum above 1 after rounding.  (In binary64, for a weight [f] in
    [0, 1] the difference [1 - f] is exact when [f >= 1/2] and off by at most
    [2^-54] otherwise, so the sum lies within [2^-54] of 1 and rounds to 1.) *)
Class RoundingLaws (R : Rounding) : Prop := {
  fl_mono : forall x y : Q, (x <= y)%Q -> (fl x <= fl y)%Q;
  fl_opp : forall x : Q, (fl (- x) == - fl x)%Q;
  fl_idem : forall x : Q, (fl (fl x) == fl x)%Q;
  fl_0 : (fl 0 == 0)%Q;
  fl_1 : (fl 1 == 1)%Q;
  fl_fade : forall x : Q, (0 <= x <= 1)%Q -> (fl (fl (1 - fl x) + fl x) <= 1)%Q;
  fround_mono : forall x y : Q, (x <= y)%Q -> (fround x <= fround y)%Q;
  fround_1 : (fround 1 == 1)%Q;
  fround_m1 : (fround (-1) == -1)%Q
}.

(* ------------------------------------------------------------------ *)
(** ** Numbers *)

Definition Qltb (x y : Q) : bool := negb (Qle_bool y x).

(** [Math.round]: the nearest integer, ties towards +infinity. *)
Definition Math_round (x : Q) : Z := Qfloor (x + (1 # 2))%Q.

(** [Math.floor]. *)
Definition Math_floor (x : Q) : Z := Qfloor x.

(** The integral part of a number (truncation towards zero), the first step
    of the ToInt16 / ToUint32 conversions of the DataView setters. *)
Definition truncate (x : Q) : Z := Z.quot (Qnum x) (Zpos (Qden x)).

Definition ToUint8 (n : Z) : Z := n mod 2 ^ 8.
Definition ToUint16 (n : Z) : Z := n mod 2 ^ 16.
Definition ToUint32 (n : Z) : Z := n mod 2 ^ 32.
Definition ToInt16 (n : Z) : Z :=
  let int16bit := n mod 2 ^ 16 in
  if 2 ^ 15 <=? int16bit then int16bit - 2 ^ 16 else int16bit.

(* ------------------------------------------------------------------ *)
(** ** Float32Array *)

Module Float32Array.

Definition t : Type := list Q.

Definition len (a : t) : Z := Z.of_nat (List.length a).

(** [new Float32Array(n)]: zero-filled; a negative length throws. *)
Definition new (n : Z) : outcome t :=
  if n <? 0 then Fault RangeError else Done (repeat 0%Q (Z.to_nat n)).

(** A relative index of [subarray]: negative counts from the end, and the
    result is clamped to the array. *)
Definition relative (length k : Z) : Z :=
  if k <? 0 then Z.max (length + k) 0 else Z.min k length.

(** [a.subarray(b, e)].  The view aliases [a]; no function below writes to
    an array while a view of it is live, so the view is its contents. *)
Definition subarray (a : t) (b e : Z) : t :=
  let from := relative (len a) b in
  let to := relative (len a) e in
  firstn (Z.to_nat (Z.max (to - from) 0)) (skipn (Z.to_nat from) a).

(** [a.subarray(b)]. *)
Definition subarray_from (a : t) (b : Z) : t := subarray a b (len a).

(** [a.slice()]: a copy. *)
Definition slice (a : t) : t := a.

(** [a[k]] read. *)
Definition get (a : t) (k : Z) : outcome Q :=
  if (0 <=? k) && (k <? len a) then Done (nth (Z.to_nat k) a 0%Q)
  else Fault UndefinedRead.

(** [a[k] = v]: a write outside the array is ignored. *)
Definition put (a : t) (k : Z) (v : Q) : t :=
  if (0 <=? k) && (k <? len a)
  then firstn (Z.to_nat k) a ++ v :: skipn (S (Z.to_nat k)) a
  else a.

(** [a.set(src, pos)]: throws when [src] does not fit at [pos]. *)
Definition set (a : t) (src : t) (pos : Z) : outcome t :=
  if (pos <? 0) || (len a <? pos + len src) then Fault RangeError
  else Done (firstn (Z.to_nat pos) a ++ src
             ++ skipn (Z.to_nat pos + List.length src) a).

End Float32Array.

(* ------------------------------------------------------------------ *)
(** ** AudioBuffer *)

Module AudioBuffer.

(** A Web Audio buffer has at least one channel.  Its [length] is the frame
    count, taken from the first channel. *)
Record t : Type := mk {
  sampleRate : Z;
  channel0 : list Q;
  otherChannels : list (list Q)
}.

Definition length (b : t) : nat := List.length (channel0 b).

Definition numberOfChannels (b : t) : nat := S (List.length (otherChannels b)).

Definition channels (b : t) : list (list Q) := channel0 b :: otherChannels b.

(** [b.copyFromChannel(dest, ch)] into a fresh zero-filled [dest] of [n]
    elements: as many frames as both hold are copied. *)
Definition copyFromChannel (n : nat) (channel : list Q) : Float32Array.t :=
  firstn n channel ++ repeat 0%Q (n - List.length channel).

(** [b.getChannelData(0)]. *)
Definition getChannelData0 (b : t) : Float32Array.t := channel0 b.

(** [audioContext.createBuffer(1, data.length, sampleRate)] followed by
    [copyToChannel(data, 0)]. *)
Definition createMono (data : Float32Array.t) (rate : Z) : t :=
  {| sampleRate := rate; channel0 := data; otherChannels := [] |}.

End AudioBuffer.

(** A segment is a pair [[start, end]] of sample indices. *)
Abbreviation segment := (Z * Z)%type.


(* ------------------------------------------------------------------ *)
(** ** The processing helpers *)

Section Helpers.

Context {R : Rounding}.

(** [msToSamples(ms, sampleRate)]. *)
Definition msToSamples (ms : Q) (sampleRate : Z) : Z :=
  Z.max 0 (Math_round (fl (fl (ms / 1000) * inject_Z sampleRate))).

(** One pass of the channel loop of [downmixToMono]: [sum[i] += channelData[i]]
    for every frame, each sum stored back as a binary32 value. *)
Definition add_channel (sum channelData : Float32Array.t) : Float32Array.t :=
  map (fun p => fround (fl (fst p + snd p))) (combine sum channelData).

(** [downmixToMono(audioBuffer)]. *)
Definition downmixToMono (audioBuffer : AudioBuffer.t) : Float32Array.t :=
  let numberOfChannels := AudioBuffer.numberOfChannels audioBuffer in
  let length := AudioBuffer.length audioBuffer in
  if Nat.eqb numberOfChannels 1 then
    AudioBuffer.copyFromChannel length (AudioBuffer.channel0 audioBuffer)
  else
    let sum :=
      fold_left
        (fun sum channel => add_channel sum (AudioBuffer.copyFromChannel length channel))
        (AudioBuffer.channels audioBuffer)
        (repeat 0%Q length) in
    map (fun x => fround (fl (x / inject_Z (Z.of_nat numberOfChannels)))) sum.

(** The variables of the scan of [detectSpeechSegments]. *)
Record scan_state : Type := mk_scan {
  segments : list segment;
  inSilence : bool;
  silenceRun : Z;
  currentSpeechStart : Z
}.

Definition scan_init : scan_state :=
  {| segments := []; inSilence := false; silenceRun := 0; currentSpeechStart := 0 |}.

(** The body of the scan loop at index [i], on the sample [x = channelData[i]]. *)
Definition scan_step (silenceThreshold : Q) (minSilenceSamples : Z)
    (i : Z) (x : Q) (st : scan_state) : scan_state :=
  let amp := Qabs x in
  if Qltb amp silenceThreshold then
    let silenceRun' := silenceRun st + 1 in
    if negb (inSilence st) && (minSilenceSamples <=? silenceRun') then
      let speechEnd := Z.max 0 (i - silenceRun') in
      {| segments :=
           if currentSpeechStart st <? speechEnd
           then segments st ++ [(currentSpeechStart st, speechEnd)]
           else segments st;
         inSilence := true;
         silenceRun := silenceRun';
         currentSpeechStart := currentSpeechStart st |}
    else
      {| segments := segments st;
         inSilence := inSilence st;
         silenceRun := silenceRun';
         currentSpeechStart := currentSpeechStart st |}
  else
    {| segments := segments st;
       inSilence := false;
       silenceRun := 0;
       currentSpeechStart := if inSilence st then i else currentSpeechStart st |}.

(** The scan loop from index [i] over the remaining samples. *)
Fixpoint scan_from (silenceThreshold : Q) (minSilenceSamples : Z)
    (i : Z) (rest : list Q) (st : scan_state) : scan_state :=
  match rest with
  | [] => st
  | x :: rest' =>
      scan_from silenceThreshold minSilenceSamples (i + 1) rest'
        (scan_step silenceThreshold minSilenceSamples i x st)
  end.

Definition scan (silenceThreshold : Q) (minSilenceSamples : Z)
    (channelData : Float32Array.t) : scan_state :=
  scan_from silenceThreshold minSilenceSamples 0 channelData scan_init.

(** Tail handling after the loop. *)
Definition tail_rule (N : Z) (st : scan_state) : list segment :=
  if negb (inSilence st) && (currentSpeechStart st <? N)
  then segments st ++ [(currentSpeechStart st, N)]
  else segments st.

(** The fallback: an empty list becomes the whole clip. *)
Definition fallback_rule (N : Z) (segs : list segment) : list segment :=
  match segs with
  | [] => [(0, N)]
  | _ => segs
  end.

(** The segment list before the merge pass. *)
Definition raw_segments (channelData : Float32Array.t)
    (silenceThreshold : Q) (minSilenceSamples : Z) : list segment :=
  let N := Float32Array.len channelData in
  fallback_rule N (tail_rule N (scan silenceThreshold minSilenceSamples channelData)).

(** [MERGE_GAP_SAMPLES = Math.floor(sampleRate * 0.03)]. *)
Definition MERGE_GAP_SAMPLES (sampleRate : Z) : Z :=
  Math_floor (fl (inject_Z sampleRate * fl 0.03)).

(** The body of the merge loop.  [prev[1] = seg[1]] writes into the pair that
    is the last element of [merged]; the same pair is also an element of the
    list being iterated, at a position the iteration has already passed. *)
Definition merge_push (gap : Z) (merged : list segment) (seg : segment) : list segment :=
  match merged with
  | [] => [seg]
  | _ :: _ =>
      let prev := last merged (0, 0) in
      if fst seg - snd prev <=? gap
      then removelast merged ++ [(fst prev, snd seg)]
      else merged ++ [seg]
  end.

Definition merge_segments (gap : Z) (segs : list segment) : list segment :=
  fold_left (merge_push gap) segs [].

(** [detectSpeechSegments(channelData, sampleRate, silenceThreshold, minSilenceSamples)]. *)
Definition detectSpeechSegments (channelData : Float32Array.t) (sampleRate : Z)
    (silenceThreshold : Q) (minSilenceSamples : Z) : list segment :=
  merge_segments (MERGE_GAP_SAMPLES sampleRate)
    (raw_segments channelData silenceThreshold minSilenceSamples).

End Helpers.

(* ------------------------------------------------------------------ *)
(** ** The crossfade stitcher *)

Section Stitcher.

Context {R : Rounding}.

(** [Math.min(overlapSamples, prevLen, len)]. *)
Definition overlap (overlapSamples prevLen len : Z) : Z :=
  Z.min (Z.min overlapSamples prevLen) len.

(** The first loop of [buildOutputBufferFromSegments]: the total length.
    [prev] is [segments[idx - 1]], absent when [idx = 0]. *)
Fixpoint total_loop (overlapSamples : Z) (prev : option segment)
    (segs : list segment) (total : Z) : Z :=
  match segs with
  | [] => total
  | (s, e) :: rest =>
      let len := e - s in
      let total := total + len in
      let total :=
        match prev with
        | None => total
        | Some (ps, pe) =>
            let prevLen := pe - ps in
            let ov := overlap overlapSamples prevLen len in
            total - ov
        end in
      total_loop overlapSamples (Some (s, e)) rest total
  end.

(** The value that iteration [i] of the crossfade loop stores at
    [writePos + i], from [a = out[writePos + i]] and [b = segView[i]]. *)
Definition crossfade_sample (a b : Q) (i ov : Z) : Q :=
  let fadeIn := if ov =? 0 then 1%Q else fl (inject_Z i / inject_Z ov) in
  let fadeOut := fl (1 - fadeIn) in
  fround (fl (fl (a * fadeOut) + fl (b * fadeIn))).

(** The crossfade loop [for (let i = 0; i < ov; i++)], with [n] iterations
    left to run from index [i]. *)
Fixpoint crossfade_loop (out segView : Float32Array.t) (writePos ov : Z)
    (n : nat) (i : Z) : outcome Float32Array.t :=
  match n with
  | O => Done out
  | S n' =>
      a <- Float32Array.get out (writePos + i) ;;
      b <- Float32Array.get segView i ;;
      let out := Float32Array.put out (writePos + i) (crossfade_sample a b i ov) in
      crossfade_loop out segView writePos ov n' (i + 1)
  end.

(** The second loop: the state is the output array and the write cursor. *)
Fixpoint stitch_loop (source : Float32Array.t) (overlapSamples : Z)
    (prev : option segment) (segs : list segment)
    (out : Float32Array.t) (writePos : Z) : outcome (Float32Array.t * Z) :=
  match segs with
  | [] => Done (out, writePos)
  | (s, e) :: rest =>
      let segLen := e - s in
      let segView := Float32Array.subarray source s e in
      match prev with
      | None =>
          out <- Float32Array.set out segView writePos ;;
          stitch_loop source overlapSamples (Some (s, e)) rest out (writePos + segLen)
      | Some (ps, pe) =>
          let prevLen := pe - ps in
          let ov := overlap overlapSamples prevLen segLen in
          let writePos := writePos - ov in
          out <- crossfade_loop out segView writePos ov (Z.to_nat ov) 0 ;;
          out <- Float32Array.set out (Float32Array.subarray_from segView ov) (writePos + ov) ;;
          stitch_loop source overlapSamples (Some (s, e)) rest out (writePos + segLen)
      end
  end.

(** [buildOutputBufferFromSegments(source, segments, overlapSamples)]. *)
Definition buildOutputBufferFromSegments (source : Float32Array.t)
    (segments : list segment) (overlapSamples : Z) : outcome Float32Array.t :=
  match segments with
  | [] => Float32Array.new 0
  | [(s, e)] => Done (Float32Array.slice (Float32Array.subarray source s e))
  | _ =>
      let total := total_loop overlapSamples None segments 0 in
      out <- Float32Array.new total ;;
      '(out, _) <- stitch_loop source overlapSamples None segments out 0 ;;
      Done out
  end.

End Stitcher.

(* ------------------------------------------------------------------ *)
(** ** DataView over a fresh ArrayBuffer *)

Module DataView.

(** The bytes of the underlying buffer, each in [0, 256). *)
Definition t : Type := list Z.

Definition byteLength (view : t) : Z := Z.of_nat (List.length view).

(** [new DataView(new ArrayBuffer(n))]: zero-filled. *)
Definition new (n : Z) : outcome t :=
  if n <? 0 then Fault RangeError else Done (repeat 0 (Z.to_nat n)).

(** The [n] little-endian bytes of [v]. *)
Fixpoint le_bytes (n : nat) (v : Z) : list Z :=
  match n with
  | O => []
  | S n' => v mod 256 :: le_bytes n' (v / 256)
  end.

(** The value of little-endian bytes. *)
Fixpoint le_value (bytes : list Z) : Z :=
  match bytes with
  | [] => 0
  | b :: rest => b + 256 * le_value rest
  end.

(** Writing bytes at an offset; a setter throws when they do not fit. *)
Definition store (view : t) (byteOffset : Z) (bytes : list Z) : outcome t :=
  if (byteOffset <? 0) || (byteLength view <? byteOffset + Z.of_nat (List.length bytes))
  then Fault RangeError
  else Done (firstn (Z.to_nat byteOffset) view ++ bytes
             ++ skipn (Z.to_nat byteOffset + List.length bytes) view).

(** Reading [n] bytes at an offset; a getter throws outside the buffer. *)
Definition load (view : t) (byteOffset : Z) (n : nat) : outcome (list Z) :=
  if (byteOffset <? 0) || (byteLength view <? byteOffset + Z.of_nat n)
  then Fault RangeError
  else Done (firstn n (skipn (Z.to_nat byteOffset) view)).

(** The setters, all called with [littleEndian = true]. *)
Definition setUint8 (view : t) (byteOffset : Z) (value : Z) : outcome t :=
  store view byteOffset [ToUint8 value].

Definition setUint16 (view : t) (byteOffset : Z) (value : Z) : outcome t :=
  store view byteOffset (le_bytes 2 (ToUint16 value)).

Definition setUint32 (view : t) (byteOffset : Z) (value : Z) : outcome t :=
  store view byteOffset (le_bytes 4 (ToUint32 value)).

(** [setInt16] receives a number that need not be an integer. *)
Definition setInt16 (view : t) (byteOffset : Z) (value : Q) : outcome t :=
  store view byteOffset (le_bytes 2 (ToUint16 (ToInt16 (truncate value)))).

(** The getters, little-endian. *)
Definition getUint16 (view : t) (byteOffset : Z) : outcome Z :=
  bytes <- load view byteOffset 2 ;; Done (le_value bytes).

Definition getUint32 (view : t) (byteOffset : Z) : outcome Z :=
  bytes <- load view byteOffset 4 ;; Done (le_value bytes).

Definition getInt16 (view : t) (byteOffset : Z) : outcome Z :=
  bytes <- load view byteOffset 2 ;; Done (ToInt16 (le_value bytes)).

End DataView.

(* ------------------------------------------------------------------ *)
(** ** The WAV encoder *)

(** [str.charCodeAt(i)] for every [i]. *)
Fixpoint charCodes (str : string) : list Z :=
  match str with
  | EmptyString => []
  | String c rest => Z.of_N (N_of_ascii c) :: charCodes rest
  end.

(** The loop of [writeString(view, offset, str)] from index [i]. *)
Fixpoint writeString_from (view : DataView.t) (offset : Z) (i : Z) (str : string)
    : outcome DataView.t :=
  match str with
  | EmptyString => Done view
  | String c rest =>
      view <- DataView.setUint8 view (offset + i) (Z.of_N (N_of_ascii c)) ;;
      writeString_from view offset (i + 1) rest
  end.

Definition writeString (view : DataView.t) (offset : Z) (str : string) : outcome DataView.t :=
  writeString_from view offset 0 str.

(** The number handed to [setInt16] for the sample [x]: clamp, then scale. *)
Definition scale_sample (x : Q) : Q :=
  let s := Qmax (-1) (Qmin 1 x) in
  if Qltb s 0 then (s * 32768)%Q else (s * 32767)%Q.

(** [floatTo16BitPCM(view, offset, input)]. *)
Fixpoint floatTo16BitPCM (view : DataView.t) (offset : Z) (input : Float32Array.t)
    : outcome DataView.t :=
  match input with
  | [] => Done view
  | x :: rest =>
      view <- DataView.setInt16 view offset (scale_sample x) ;;
      floatTo16BitPCM view (offset + 2) rest
  end.

(** [audioBufferToWavBlob(buffer)]: the bytes of the Blob. *)
Definition audioBufferToWavBlob (buffer : AudioBuffer.t) : outcome (list Z) :=
  let numChannels := 1 in
  let sampleRate := AudioBuffer.sampleRate buffer in
  let channelData := AudioBuffer.getChannelData0 buffer in
  let samples := Float32Array.len channelData in
  let bytesPerSample := 2 in
  let blockAlign := numChannels * bytesPerSample in
  let byteRate := sampleRate * blockAlign in
  let dataSize := samples * bytesPerSample in
  let headerSize := 44 in
  let totalSize := headerSize + dataSize in
  view <- DataView.new totalSize ;;
  view <- writeString view 0 "RIFF" ;;
  view <- DataView.setUint32 view 4 (36 + dataSize) ;;
  view <- writeString view 8 "WAVE" ;;
  view <- writeString view 12 "fmt " ;;
  view <- DataView.setUint32 view 16 16 ;;
  view <- DataView.setUint16 view 20 1 ;;
  view <- DataView.setUint16 view 22 numChannels ;;
  view <- DataView.setUint32 view 24 sampleRate ;;
  view <- DataView.setUint32 view 28 byteRate ;;
  view <- DataView.setUint16 view 32 blockAlign ;;
  view <- DataView.setUint16 view 34 16 ;;
  view <- writeString view 36 "data" ;;
  view <- DataView.setUint32 view 40 dataSize ;;
  floatTo16BitPCM view 44 channelData.

(* ------------------------------------------------------------------ *)
(** ** The entry point *)

Section Pipeline.

Context {R : Rounding}.

(** The [options] argument: every field may be absent. *)
Record options : Type := mk_options {
  opt_silenceThreshold : option Q;
  opt_minSilenceMs : option Q;
  opt_overlapMs : option Q
}.

(** The [DEFAULTS] object. *)
Definition DEFAULTS_silenceThreshold : Q := fl 0.015.
Definition DEFAULTS_minSilenceMs : Q := 200.
Definition DEFAULTS_overlapMs : Q := 60.

(** [value ?? fallback]. *)
Definition nullish {A : Type} (value : option A) (fallback : A) : A :=
  match value with
  | Some v => v
  | None => fallback
  end.

(** The test [segments.length <= 1 && segments[0] && segments[0][0] === 0
    && segments[0][1] === monoData.length]. *)
Definition no_significant_silence (segs : list segment) (monoData : Float32Array.t) : bool :=
  (Nat.leb (List.length segs) 1)
  && match nth_error segs 0 with
     | Some (s, e) => (s =? 0) && (e =? Float32Array.len monoData)
     | None => false
     end.

(** The mono buffer that [processAudioBuffer] hands to the encoder:
    [originalBuffer] on the early return, [outBuffer] otherwise. *)
Definition outputBuffer (audioBuffer : AudioBuffer.t) (opts : options)
    : outcome AudioBuffer.t :=
  let silenceThreshold := nullish (opt_silenceThreshold opts) DEFAULTS_silenceThreshold in
  let minSilenceMs := nullish (opt_minSilenceMs opts) DEFAULTS_minSilenceMs in
  let overlapMs := nullish (opt_overlapMs opts) DEFAULTS_overlapMs in
  let sampleRate := AudioBuffer.sampleRate audioBuffer in
  let minSilenceSamples := msToSamples minSilenceMs sampleRate in
  let overlapSamples := msToSamples overlapMs sampleRate in
  let monoData := downmixToMono audioBuffer in
  let segments :=
    detectSpeechSegments monoData sampleRate silenceThreshold minSilenceSamples in
  if no_significant_silence segments monoData then
    Done (AudioBuffer.createMono monoData sampleRate)
  else
    stitchedData <- buildOutputBufferFromSegments monoData segments overlapSamples ;;
    Done (AudioBuffer.createMono stitchedData sampleRate).

(** [processAudioBuffer(audioContext, audioBuffer, options)]: the bytes of
    the Blob the promise resolves with. *)
Definition processAudioBuffer (audioBuffer : AudioBuffer.t) (opts : options)
    : outcome (list Z) :=
  buffer <- outputBuffer audioBuffer opts ;;
  audioBufferToWavBlob buffer.

End Pipeline.

(* ------------------------------------------------------------------ *)
(** ** Vocabulary of the specification *)

(** The Segment invariant of the data model, for a buffer of [N] samples. *)
Definition valid_segment (N : Z) (seg : segment) : Prop :=
  0 <= fst seg /\ fst seg < snd seg /\ snd seg <= N.

(** A segment that lies inside a buffer of [N] samples, possibly empty. *)
Definition within (N : Z) (seg : segment) : Prop :=
  0 <= fst seg /\ fst seg <= snd seg /\ snd seg <= N.

(** Ordered and non-overlapping: each segment ends no later than the next
    one starts, and the starts ascend. *)
Fixpoint ordered (segs : list segment) : Prop :=
  match segs with
  | [] => True
  | a :: rest =>
      match rest with
      | [] => True
      | b :: _ => snd a <= fst b /\ fst a < fst b
      end /\ ordered rest
  end.

Definition seg_length (seg : segment) : Z := snd seg - fst seg.

(** The sum of the segment lengths. *)
Definition sum_lengths (segs : list segment) : Z :=
  fold_right (fun seg acc => seg_length seg + acc) 0 segs.

(** The sum, over the adjacent pairs, of
    [min(overlapSamples, len(previous), len(current))]. *)
Fixpoint sum_overlaps (overlapSamples : Z) (segs : list segment) : Z :=
  match segs with
  | a :: (b :: _) as rest =>
      overlap overlapSamples (seg_length a) (seg_length b)
      + sum_overlaps overlapSamples rest
  | _ => 0
  end.

(** The stitched length the specification states. *)
Definition stitched_length (overlapSamples : Z) (segs : list segment) : Z :=
  sum_lengths segs - sum_overlaps overlapSamples segs.

(** The merge pass as the specification words it: walk the list keeping the
    segment accepted last; a segment whose gap to it is at most [gap]
    extends its end, any other segment is accepted as a new one. *)
Fixpoint merge_after (gap : Z) (accepted : segment) (segs : list segment) : list segment :=
  match segs with
  | [] => [accepted]
  | seg :: rest =>
      if fst seg - snd accepted <=? gap
      then merge_after gap (fst accepted, snd seg) rest
      else accepted :: merge_after gap seg rest
  end.

Definition merge_spec (gap : Z) (segs : list segment) : list segment :=
  match segs with
  | [] => []
  | seg :: rest => merge_after gap seg rest
  end.

(** The scan step as the specification words it: the closed segment is
    [[speechStart, i - silenceRun)] and it is kept when its length is positive. *)
Definition spec_scan_step (silenceThreshold : Q) (minSilenceSamples : Z)
    (i : Z) (x : Q) (st : scan_state) : scan_state :=
  if Qle_bool silenceThreshold (Qabs x) then
    mk_scan (segments st) false 0
      (if inSilence st then i else currentSpeechStart st)
  else
    let run := silenceRun st + 1 in
    if inSilence st then mk_scan (segments st) true run (currentSpeechStart st)
    else if run <? minSilenceSamples
    then mk_scan (segments st) false run (currentSpeechStart st)
    else
      let closed := (currentSpeechStart st, i - run) in
      mk_scan (if 0 <? seg_length closed then segments st ++ [closed] else segments st)
        true run (currentSpeechStart st).

(** The conversion the specification states for a sample, with rounding to
    the nearest integer. *)
Definition spec_pcm16 (x : Q) : Z :=
  let s := Qmax (-1) (Qmin 1 x) in
  if Qle_bool 0 s then Math_round (s * 32767) else Math_round (s * 32768).

(** The conversion with truncation towards zero. *)
Definition trunc_pcm16 (x : Q) : Z :=
  let s := Qmax (-1) (Qmin 1 x) in
  if Qle_bool 0 s then truncate (s * 32767) else truncate (s * 32768).




(** The 44-byte header of section 6 for a sample rate and a data size, every
    multi-byte field little-endian. *)
Definition wav_header (sampleRate dataSize : Z) : list Z :=
  charCodes "RIFF"
  ++ DataView.le_bytes 4 (ToUint32 (36 + dataSize))
  ++ charCodes "WAVE"
  ++ charCodes "fmt "
  ++ DataView.le_bytes 4 (ToUint32 16)
  ++ DataView.le_bytes 2 (ToUint16 1)
  ++ DataView.le_bytes 2 (ToUint16 1)
  ++ DataView.le_bytes 4 (ToUint32 sampleRate)
  ++ DataView.le_bytes 4 (ToUint32 (sampleRate * 2))
  ++ DataView.le_bytes 2 (ToUint16 2)
  ++ DataView.le_bytes 2 (ToUint16 16)
  ++ charCodes "data"
  ++ DataView.le_bytes 4 (ToUint32 dataSize).

(** The 16-bit integer stored for a sample. *)
Definition pcm16 (x : Q) : Z := ToInt16 (truncate (scale_sample x)).

(** The data chunk: two little-endian bytes per sample. *)
Definition pcm_bytes (input : Float32Array.t) : list Z :=
  flat_map (fun x => DataView.le_bytes 2 (ToUint16 (pcm16 x))) input.

(* ------------------------------------------------------------------ *)
(** ** Invariants used by the proofs *)

(** The invariant of the scan loop on entry to iteration [i]. *)
Definition scan_inv (i : Z) (st : scan_state) : Prop :=
  Forall (fun seg : segment => 0 <= fst seg /\ fst seg < snd seg) (segments st)
  /\ ordered (segments st)
  /\ 0 <= silenceRun st
  /\ 0 <= currentSpeechStart st
  /\ (if inSilence st
      then Forall (fun seg : segment => snd seg <= i - silenceRun st) (segments st)
      else Forall (fun seg : segment => snd seg <= currentSpeechStart st) (segments st)
           /\ currentSpeechStart st <= i - silenceRun st
           /\ (currentSpeechStart st = 0 \/ currentSpeechStart st < i)).



(* ------------------------------------------------------------------ *)
(** ** Vocabulary of the further properties *)

(** Every segment starts more than [gap] samples after the one before it
    ends. *)
Fixpoint separated (gap : Z) (segs : list segment) : Prop :=
  match segs with
  | a :: (b :: _) as rest => gap < fst b - snd a /\ separated gap rest
  | _ => True
  end.

(** [seg] lies inside one of the segments of [segs]. *)
Definition covered (segs : list segment) (seg : segment) : Prop :=
  Exists (fun m : segment => fst m <= fst seg /\ snd seg <= snd m) segs.

(** The silence predicate of the scan, [Math.abs(x) < silenceThreshold]. *)
Definition silent (silenceThreshold : Q) (x : Q) : Prop :=
  (Qabs x < silenceThreshold)%Q.

Definition loud (silenceThreshold : Q) (x : Q) : Prop :=
  (silenceThreshold <= Qabs x)%Q.

(** What the scan loop keeps besides [scan_inv]: once in silence the run is
    at least [max(minSilenceSamples, 1)] long, and every closed segment ends
    more than that many samples before the next speech can start. *)
Definition scan_gap_inv (minSilenceSamples i : Z) (st : scan_state) : Prop :=
  let M := Z.max minSilenceSamples 1 in
  separated M (segments st)
  /\ (if inSilence st
      then M <= silenceRun st
           /\ Forall (fun seg : segment => snd seg + silenceRun st + 1 <= i) (segments st)
      else Forall (fun seg : segment => snd seg + M + 1 <= currentSpeechStart st)
             (segments st)).

Section StitchedSamples.

Context {R : Rounding}.

(** The crossfade of the samples [tail] with the samples [head], position by
    position from index [i]. *)
Fixpoint crossfade_run (tail head : list Q) (i ov : Z) : list Q :=
  match tail, head with
  | a :: tail', b :: head' =>
      crossfade_sample a b i ov :: crossfade_run tail' head' (i + 1) ov
  | _, _ => []
  end.

(** The clip stitched so far with one more segment joined to it: its last
    [ov] samples are crossfaded with the first [ov] samples of [view], the
    remaining samples of [view] follow. *)
Definition join_crossfaded (stitched view : list Q) (ov : Z) : list Q :=
  let keep := (List.length stitched - Z.to_nat ov)%nat in
  firstn keep stitched
  ++ crossfade_run (skipn keep stitched) view 0 ov
  ++ skipn (Z.to_nat ov) view.

(** The stitched clip as a list: the first segment, then every further
    segment joined with its crossfade. *)
Fixpoint stitch_list (source : Float32Array.t) (overlapSamples : Z)
    (prev : option segment) (segs : list segment) (stitched : list Q) : list Q :=
  match segs with
  | [] => stitched
  | (s, e) :: rest =>
      let view := Float32Array.subarray source s e in
      let stitched' :=
        match prev with
        | None => stitched ++ view
        | Some (ps, pe) =>
            join_crossfaded stitched view (overlap overlapSamples (pe - ps) (e - s))
        end in
      stitch_list source overlapSamples (Some (s, e)) rest stitched'
  end.

End StitchedSamples.


(** A number between [-k] and [k]. *)
Definition in_band (k : Z) (x : Q) : Prop := (- inject_Z k <= x <= inject_Z k)%Q.

(* ------------------------------------------------------------------ *)
(** ** The download link (app.js) *)

(** The download link of the page: its [href], its [download] attribute (the
    file name the browser proposes) and whether it carries the class
    [disabled]. *)
Record download_link : Type := mk_link {
  link_href : string;
  link_download : option string;
  link_disabled : bool
}.

(** The character class [[^/.]]. *)
Definition not_slash_dot (c : ascii) : bool :=
  negb (Ascii.eqb c "/" || Ascii.eqb c ".").

(** The pattern [[^/.]+$] matched at the start of [s]: one or more characters
    of the class, up to the end of the string. *)
Fixpoint extension_tail (s : string) : bool :=
  match s with
  | EmptyString => false
  | String c rest =>
      not_slash_dot c
      && match rest with
         | EmptyString => true
         | String _ _ => extension_tail rest
         end
  end.

(** [name.replace(/\.[^/.]+$/, '')]: the first position where the pattern
    matches, from the left, is cut off.  File names are strings of 8-bit
    characters here; the pattern treats every character other than [/] and
    [.] alike. *)
Fixpoint strip_extension (name : string) : string :=
  match name with
  | EmptyString => EmptyString
  | String c rest =>
      if Ascii.eqb c "." && extension_tail rest then EmptyString
      else String c (strip_extension rest)
  end.

(** [originalName || 'processed']: a missing or empty name is falsy. *)
Definition or_processed (originalName : option string) : string :=
  match originalName with
  | Some (String c rest) => String c rest
  | _ => "processed"%string
  end.

(** [enableDownload(href, originalName)] on the link. *)
Definition enableDownload (href : string) (originalName : option string)
    (link : download_link) : download_link :=
  let base := strip_extension (or_processed originalName) in
  {| link_href := href;
     link_download := Some (base ++ "-processed.wav")%string;
     link_disabled := false |}.

(** [disableDownload()] on the link. *)
Definition disableDownload (link : download_link) : download_link :=
  {| link_href := "#"%string;
     link_download := link_download link;
     link_disabled := true |}.

(** The characters of a file name, and a name free of dots and slashes. *)
Definition chars (s : string) : list ascii := list_ascii_of_string s.

Definition plain_name (s : string) : Prop :=
  forall c : ascii, In c (chars s) -> c <> "/"%char /\ c <> "."%char.

(* ================================================================== *)
(** * Properties *)

(** ** Outcomes *)

Lemma bind_Done {A B : Type} (a : A) (k : A -> outcome B) : bind (Done a) k = k a.
Proof. reflexivity. Qed.

(** ** Byte-level facts of the DataView *)

Lemma le_bytes_length (n : nat) (v : Z) : List.length (DataView.le_bytes n v) = n.
Proof. revert v; induction n as [|n IH]; intros v; simpl; [reflexivity | now rewrite IH]. Qed.

Lemma le_value_le_bytes (n : nat) (v : Z) :
  DataView.le_value (DataView.le_bytes n v) = v mod 256 ^ Z.of_nat n.
Proof.
  revert v; induction n as [|n IH]; intros v.
  - simpl. now rewrite Z.mod_1_r.
  - cbn [DataView.le_bytes DataView.le_value]. rewrite IH.
    rewrite Nat2Z.inj_succ, Z.pow_succ_r by lia.
    rewrite Z.rem_mul_r by lia. lia.
Qed.

Lemma le_bytes_range (n : nat) (v : Z) :
  Forall (fun b => 0 <= b < 256) (DataView.le_bytes n v).
Proof.
  revert v; induction n as [|n IH]; intros v; simpl; constructor.
  - apply Z.mod_pos_bound; lia.
  - apply IH.
Qed.

Lemma charCodes_length (str : string) : List.length (charCodes str) = String.length str.
Proof. induction str as [|c str IH]; simpl; [reflexivity | now rewrite IH]. Qed.

Lemma ascii_code_range (c : ascii) : 0 <= Z.of_N (N_of_ascii c) < 256.
Proof.
  pose proof (N_ascii_bounded c) as H. lia.
Qed.

Lemma ToUint8_ascii (c : ascii) : ToUint8 (Z.of_N (N_of_ascii c)) = Z.of_N (N_of_ascii c).
Proof. unfold ToUint8. apply Z.mod_small. pose proof (ascii_code_range c). lia. Qed.

(** A store right after the bytes written so far appends to them. *)
Lemma store_append (done rest bytes : list Z) (byteOffset : Z) :
  byteOffset = Z.of_nat (List.length done) ->
  (List.length bytes <= List.length rest)%nat ->
  DataView.store (done ++ rest) byteOffset bytes
  = Done ((done ++ bytes) ++ skipn (List.length bytes) rest).
Proof.
  intros -> Hfit. unfold DataView.store, DataView.byteLength.
  rewrite length_app.
  replace (Z.of_nat (List.length done) <? 0) with false by (symmetry; apply Z.ltb_ge; lia).
  replace (Z.of_nat (List.length done + List.length rest)
           <? Z.of_nat (List.length done) + Z.of_nat (List.length bytes))
    with false by (symmetry; apply Z.ltb_ge; lia).
  cbn [orb]. rewrite Nat2Z.id.
  rewrite firstn_app, Nat.sub_diag, firstn_all, firstn_O, app_nil_r.
  rewrite skipn_app, skipn_all2 by lia.
  replace (List.length done + List.length bytes - List.length done)%nat
    with (List.length bytes) by lia.
  now rewrite <- app_assoc.
Qed.

Lemma writeString_from_append (str : string) (done rest : list Z) (offset i : Z) :
  offset + i = Z.of_nat (List.length done) ->
  (String.length str <= List.length rest)%nat ->
  writeString_from (done ++ rest) offset i str
  = Done ((done ++ charCodes str) ++ skipn (String.length str) rest).
Proof.
  revert done rest i; induction str as [|c str IH]; intros done rest i Hoff Hfit.
  - simpl. now rewrite app_nil_r.
  - cbn [writeString_from charCodes String.length]. unfold DataView.setUint8.
    simpl in Hfit.
    rewrite (store_append done rest _ (offset + i) Hoff) by (simpl; lia).
    rewrite bind_Done. cbn [List.length].
    rewrite IH.
    + rewrite ToUint8_ascii. f_equal.
      rewrite <- !app_assoc. cbn [app]. f_equal. f_equal.
      destruct rest as [|r rest]; [simpl in Hfit; lia|].
      reflexivity.
    + rewrite length_app. simpl. lia.
    + rewrite length_skipn. lia.
Qed.

Lemma writeString_append (str : string) (done rest : list Z) (offset : Z) :
  offset = Z.of_nat (List.length done) ->
  (String.length str <= List.length rest)%nat ->
  writeString (done ++ rest) offset str
  = Done ((done ++ charCodes str) ++ skipn (String.length str) rest).
Proof. intros H1 H2. unfold writeString. apply writeString_from_append; lia. Qed.

Lemma pcm_bytes_length (input : Float32Array.t) :
  List.length (pcm_bytes input) = (2 * List.length input)%nat.
Proof.
  induction input as [|x input IH]; [reflexivity|].
  unfold pcm_bytes in *. cbn [flat_map]. rewrite length_app, IH, le_bytes_length.
  simpl. lia.
Qed.

Lemma floatTo16BitPCM_append (input : Float32Array.t) (done rest : list Z) (offset : Z) :
  offset = Z.of_nat (List.length done) ->
  (2 * List.length input <= List.length rest)%nat ->
  floatTo16BitPCM (done ++ rest) offset input
  = Done ((done ++ pcm_bytes input) ++ skipn (2 * List.length input) rest).
Proof.
  revert done rest offset; induction input as [|x input IH]; intros done rest offset Hoff Hfit.
  - simpl. now rewrite app_nil_r.
  - cbn [floatTo16BitPCM]. unfold DataView.setInt16.
    simpl List.length in Hfit.
    rewrite (store_append done rest _ offset Hoff)
      by (rewrite le_bytes_length; lia).
    rewrite bind_Done, le_bytes_length.
    rewrite IH.
    + f_equal. unfold pcm_bytes. cbn [flat_map]. fold (pcm16 x).
      rewrite <- !app_assoc. do 3 f_equal.
      rewrite skipn_skipn. f_equal. simpl. lia.
    + rewrite length_app, le_bytes_length. lia.
    + rewrite length_skipn. lia.
Qed.

Ltac view_lengths :=
  repeat (rewrite ?length_app, ?length_skipn, ?repeat_length, ?le_bytes_length,
            ?charCodes_length, ?pcm_bytes_length);
  cbn [List.length String.length]; rewrite <- ?Nat.sub_add_distr; lia.

Ltac append_step :=
  first
    [ rewrite writeString_append by view_lengths
    | unfold DataView.setUint32 at 1; rewrite store_append by view_lengths
    | unfold DataView.setUint16 at 1; rewrite store_append by view_lengths ];
  rewrite bind_Done.

Lemma audioBufferToWavBlob_bytes (buffer : AudioBuffer.t) :
  let data := AudioBuffer.getChannelData0 buffer in
  audioBufferToWavBlob buffer
  = Done (wav_header (AudioBuffer.sampleRate buffer) (Float32Array.len data * 2)
          ++ pcm_bytes data).
Proof.
  intros data. unfold audioBufferToWavBlob. fold data. clearbody data.
  unfold DataView.new, Float32Array.len.
  replace (44 + Z.of_nat (List.length data) * 2 <? 0) with false
    by (symmetry; apply Z.ltb_ge; lia).
  rewrite bind_Done.
  replace (Z.to_nat (44 + Z.of_nat (List.length data) * 2))
    with (44 + 2 * List.length data)%nat by lia.
  change (repeat 0 (44 + 2 * List.length data))
    with (@nil Z ++ repeat 0 (44 + 2 * List.length data)).
  do 13 append_step.
  rewrite floatTo16BitPCM_append by view_lengths.
  f_equal.
  rewrite (skipn_all2 (n := (2 * List.length data)%nat)) by view_lengths.
  rewrite app_nil_r. unfold wav_header. cbn [app].
  rewrite <- !app_assoc. reflexivity.
Qed.

Lemma load_skip (a b : list Z) (byteOffset : Z) (n : nat) :
  Z.of_nat (List.length a) <= byteOffset ->
  DataView.load (a ++ b) byteOffset n
  = DataView.load b (byteOffset - Z.of_nat (List.length a)) n.
Proof.
  intros H. unfold DataView.load, DataView.byteLength.
  rewrite length_app.
  replace (byteOffset <? 0) with false by (symmetry; apply Z.ltb_ge; lia).
  replace (byteOffset - Z.of_nat (List.length a) <? 0) with false
    by (symmetry; apply Z.ltb_ge; lia).
  cbn [orb].
  destruct (Z.ltb_spec (Z.of_nat (List.length a + List.length b)) (byteOffset + Z.of_nat n));
    destruct (Z.ltb_spec (Z.of_nat (List.length b))
                (byteOffset - Z.of_nat (List.length a) + Z.of_nat n));
    try lia; try reflexivity.
  f_equal. rewrite skipn_app, skipn_all2 by lia. cbn [app].
  do 2 f_equal. lia.
Qed.

Lemma load_here (b c : list Z) (byteOffset : Z) (n : nat) :
  byteOffset = 0 -> n = List.length b ->
  DataView.load (b ++ c) byteOffset n = Done b.
Proof.
  intros -> ->. unfold DataView.load, DataView.byteLength.
  rewrite length_app. cbn [Z.ltb Z.compare orb].
  replace (Z.of_nat (List.length b + List.length c) <? 0 + Z.of_nat (List.length b))
    with false by (symmetry; apply Z.ltb_ge; lia).
  cbn [Z.to_nat skipn]. rewrite firstn_app, Nat.sub_diag, firstn_all, firstn_O.
  now rewrite app_nil_r.
Qed.

Lemma load_pcm (input : Float32Array.t) (tail : list Z) (k : nat) (byteOffset : Z) :
  (k < List.length input)%nat ->
  byteOffset = 2 * Z.of_nat k ->
  DataView.load (pcm_bytes input ++ tail) byteOffset 2
  = Done (DataView.le_bytes 2 (ToUint16 (pcm16 (nth k input 0%Q)))).
Proof.
  revert k byteOffset; induction input as [|x input IH]; intros k byteOffset Hk ->.
  - simpl in Hk; lia.
  - unfold pcm_bytes. cbn [flat_map]. fold (pcm_bytes input).
    rewrite <- app_assoc.
    destruct k as [|k].
    + apply load_here; [reflexivity | now rewrite le_bytes_length].
    + rewrite load_skip by (rewrite le_bytes_length; lia).
      rewrite le_bytes_length. cbn [nth].
      apply IH; [simpl in Hk; lia | lia].
Qed.

(** ** Conversions *)

Lemma ToInt16_small (n : Z) : - 2 ^ 15 <= n < 2 ^ 15 -> ToInt16 n = n.
Proof.
  intros H. unfold ToInt16.
  destruct (Z.leb_spec (2 ^ 15) (n mod 2 ^ 16)) as [Hhi|Hlo].
  - destruct (Z.neg_nonneg_cases n) as [Hn|Hn].
    + rewrite <- (Z.mod_add n 1 (2 ^ 16)) by lia.
      rewrite Z.mod_small by lia. lia.
    + rewrite Z.mod_small in Hhi by lia. lia.
  - destruct (Z.neg_nonneg_cases n) as [Hn|Hn].
    + rewrite <- (Z.mod_add n 1 (2 ^ 16)) in Hlo by lia.
      rewrite Z.mod_small in Hlo by lia. lia.
    + apply Z.mod_small. lia.
Qed.

Lemma ToInt16_range (n : Z) : - 2 ^ 15 <= ToInt16 n < 2 ^ 15.
Proof.
  unfold ToInt16. pose proof (Z.mod_pos_bound n (2 ^ 16) ltac:(lia)).
  destruct (Z.leb_spec (2 ^ 15) (n mod 2 ^ 16)); lia.
Qed.

Lemma ToInt16_ToUint16 (n : Z) : ToInt16 (ToUint16 n) = ToInt16 n.
Proof. unfold ToInt16, ToUint16. now rewrite Z.mod_mod by lia. Qed.

(** Reading back the two bytes stored for a 16-bit integer. *)
Lemma int16_bytes_roundtrip (n : Z) :
  ToInt16 (DataView.le_value (DataView.le_bytes 2 (ToUint16 n))) = ToInt16 n.
Proof.
  rewrite le_value_le_bytes. change (256 ^ Z.of_nat 2) with (2 ^ 16).
  fold (ToUint16 (ToUint16 n)). now rewrite !ToInt16_ToUint16.
Qed.

Lemma truncate_range (q : Q) (a b : Z) :
  a <= 0 <= b -> (inject_Z a <= q <= inject_Z b)%Q -> a <= truncate q <= b.
Proof.
  intros Hab [Hlo Hhi]. destruct q as [n d]. unfold truncate. cbn [Qnum Qden].
  unfold Qle in Hlo, Hhi. cbn [Qnum Qden inject_Z] in Hlo, Hhi.
  rewrite Z.mul_1_r in Hlo, Hhi.
  split.
  - rewrite <- (Z.quot_mul a (Zpos d)) by lia. apply Z.quot_le_mono; lia.
  - rewrite <- (Z.quot_mul b (Zpos d)) by lia. apply Z.quot_le_mono; lia.
Qed.

Lemma clamp_range (x : Q) : (-1 <= Qmax (-1) (Qmin 1 x) <= 1)%Q.
Proof.
  split.
  - apply Q.le_max_l.
  - apply Q.max_lub; [discriminate | apply Q.le_min_l].
Qed.

Lemma Qltb_true (x y : Q) : Qltb x y = true <-> (x < y)%Q.
Proof.
  unfold Qltb. rewrite negb_true_iff, <- not_true_iff_false, Qle_bool_iff.
  split; [apply Qnot_le_lt | apply Qlt_not_le].
Qed.

Lemma Qltb_false (x y : Q) : Qltb x y = false <-> (y <= x)%Q.
Proof. unfold Qltb. now rewrite negb_false_iff, Qle_bool_iff. Qed.

Lemma pcm16_truncates (x : Q) :
  pcm16 x = trunc_pcm16 x /\ - 2 ^ 15 <= trunc_pcm16 x < 2 ^ 15.
Proof.
  unfold pcm16, trunc_pcm16, scale_sample.
  pose proof (clamp_range x) as [Hlo Hhi].
  set (s := Qmax (-1) (Qmin 1 x)) in *. clearbody s.
  unfold Qltb. destruct (Qle_bool 0 s) eqn:Hs; cbn [negb].
  - apply Qle_bool_iff in Hs.
    assert (H : 0 <= truncate (s * 32767) <= 32767).
    { apply truncate_range; [lia|]. unfold inject_Z. split; nra. }
    rewrite ToInt16_small by lia. lia.
  - assert (Hneg : (s < 0)%Q).
    { apply Qnot_le_lt. intros H. apply Qle_bool_iff in H. congruence. }
    assert (H : -32768 <= truncate (s * 32768) <= 0).
    { apply truncate_range; [lia|]. unfold inject_Z. split; nra. }
    rewrite ToInt16_small by lia. lia.
Qed.

Lemma uint32_bytes_roundtrip (v : Z) :
  DataView.le_value (DataView.le_bytes 4 (ToUint32 v)) = ToUint32 v.
Proof.
  rewrite le_value_le_bytes. change (256 ^ Z.of_nat 4) with (2 ^ 32).
  unfold ToUint32. apply Z.mod_mod. lia.
Qed.

Lemma uint16_bytes_roundtrip (v : Z) :
  DataView.le_value (DataView.le_bytes 2 (ToUint16 v)) = ToUint16 v.
Proof.
  rewrite le_value_le_bytes. change (256 ^ Z.of_nat 2) with (2 ^ 16).
  unfold ToUint16. apply Z.mod_mod. lia.
Qed.

Lemma ToUint32_small (v : Z) : 0 <= v < 2 ^ 32 -> ToUint32 v = v.
Proof. intros H. unfold ToUint32. apply Z.mod_small. lia. Qed.

Lemma wav_header_length (sampleRate dataSize : Z) :
  List.length (wav_header sampleRate dataSize) = 44%nat.
Proof. unfold wav_header. view_lengths. Qed.

(** Locating a field of the container: skip the chunks before it. *)
Ltac chunk_lengths :=
  rewrite ?le_bytes_length, ?charCodes_length; cbn [String.length]; lia.

Ltac read_field :=
  unfold wav_header; rewrite <- ?app_assoc;
  repeat (rewrite load_skip by chunk_lengths);
  first [ rewrite load_here by chunk_lengths
        | erewrite load_pcm by (try eassumption; chunk_lengths) ];
  rewrite ?bind_Done.

(** C1 (amended): [floatTo16BitPCM] clamps every sample to [-1, 1] and stores
    the scaled value truncated towards zero: the 16-bit integer read back at
    the position of sample [k] is [truncate (s * 32767)] when [s >= 0] and
    [truncate (s * 32768)] when [s < 0], and it lies in the signed 16-bit
    range. *)
Theorem C1_floatTo16BitPCM_truncates
    (view : DataView.t) (offset : Z) (input : Float32Array.t) (k : nat) :
  0 <= offset ->
  offset + 2 * Float32Array.len input <= DataView.byteLength view ->
  (k < List.length input)%nat ->
  exists view',
    floatTo16BitPCM view offset input = Done view'
    /\ DataView.getInt16 view' (offset + 2 * Z.of_nat k)
       = Done (trunc_pcm16 (nth k input 0%Q))
    /\ - 2 ^ 15 <= trunc_pcm16 (nth k input 0%Q) < 2 ^ 15.
Proof.
  unfold Float32Array.len, DataView.byteLength. intros Hoff Hfit Hk.
  pose proof (firstn_skipn (Z.to_nat offset) view) as Hsplit.
  assert (Hdone : List.length (firstn (Z.to_nat offset) view) = Z.to_nat offset)
    by (rewrite length_firstn; lia).
  assert (Hrest : List.length (skipn (Z.to_nat offset) view)
                  = (List.length view - Z.to_nat offset)%nat)
    by apply length_skipn.
  set (done := firstn (Z.to_nat offset) view) in *.
  set (rest := skipn (Z.to_nat offset) view) in *.
  clearbody done rest. subst view. rewrite length_app in *.
  rewrite floatTo16BitPCM_append by lia.
  eexists; split; [reflexivity|].
  destruct (pcm16_truncates (nth k input 0%Q)) as [Heq Hrange].
  split; [|exact Hrange].
  unfold DataView.getInt16. rewrite <- app_assoc.
  rewrite load_skip by lia.
  rewrite (load_pcm input _ k) by lia.
  rewrite bind_Done, int16_bytes_roundtrip.
  rewrite <- Heq. f_equal. apply ToInt16_small. unfold pcm16. apply ToInt16_range.
Qed.

Lemma C1_floatTo16BitPCM_truncates_witness :
  exists view',
    floatTo16BitPCM [7; 7; 0; 0; 0; 0] 2 [0.125%Q; (-1)%Q] = Done view'
    /\ DataView.getInt16 view' (2 + 2 * Z.of_nat 1)
       = Done (trunc_pcm16 (nth 1 [0.125%Q; (-1)%Q] 0%Q))
    /\ - 2 ^ 15 <= trunc_pcm16 (nth 1 [0.125%Q; (-1)%Q] 0%Q) < 2 ^ 15.
Proof.
  apply (C1_floatTo16BitPCM_truncates [7; 7; 0; 0; 0; 0] 2 [0.125%Q; (-1)%Q] 1).
  - lia.
  - vm_compute. discriminate.
  - simpl. lia.
Defined.

(** C1 (as stated) fails: the sample 0.125 scales to 4095.875, for which
    rounding to the nearest integer gives 4096, and the encoder stores 4095. *)
Lemma C1_rounding_counterexample :
  bind (floatTo16BitPCM [0; 0] 0 [0.125%Q]) (fun view => DataView.getInt16 view 0)
  = Done 4095
  /\ spec_pcm16 0.125 = 4096.
Proof. split; vm_compute; reflexivity. Qed.

(** Every element of the container is a byte value. *)
Lemma audioBufferToWavBlob_byte_range (buffer : AudioBuffer.t) (bytes : list Z) :
  audioBufferToWavBlob buffer = Done bytes -> Forall (fun b => 0 <= b < 256) bytes.
Proof.
  rewrite audioBufferToWavBlob_bytes. intros H.
  match type of H with Done ?content = _ => assert (Hb : bytes = content) by congruence end.
  rewrite Hb. clear H Hb.
  assert (Hcodes : forall str, Forall (fun b => 0 <= b < 256) (charCodes str)).
  { induction str as [|c str IH]; simpl; constructor;
      [apply ascii_code_range | exact IH]. }
  unfold wav_header, pcm_bytes. rewrite !Forall_app.
  repeat split; try apply Hcodes; try apply le_bytes_range.
  apply Forall_flat_map, Forall_forall. intros x _. apply le_bytes_range.
Qed.

(** The container for any buffer: each 32-bit field holds its value modulo
    [2 ^ 32]. *)
Lemma wav_container_fields (buffer : AudioBuffer.t) :
  let sampleRate := AudioBuffer.sampleRate buffer in
  let data := AudioBuffer.getChannelData0 buffer in
  let dataSize := Float32Array.len data * 2 in
  exists bytes,
    audioBufferToWavBlob buffer = Done bytes
    /\ DataView.byteLength bytes = 44 + dataSize
    /\ DataView.load bytes 0 4 = Done (charCodes "RIFF")
    /\ DataView.getUint32 bytes 4 = Done (ToUint32 (36 + dataSize))
    /\ DataView.load bytes 8 4 = Done (charCodes "WAVE")
    /\ DataView.load bytes 12 4 = Done (charCodes "fmt ")
    /\ DataView.getUint32 bytes 16 = Done 16
    /\ DataView.getUint16 bytes 20 = Done 1
    /\ DataView.getUint16 bytes 22 = Done 1
    /\ DataView.getUint32 bytes 24 = Done (ToUint32 sampleRate)
    /\ DataView.getUint32 bytes 28 = Done (ToUint32 (sampleRate * 2))
    /\ DataView.getUint16 bytes 32 = Done 2
    /\ DataView.getUint16 bytes 34 = Done 16
    /\ DataView.load bytes 36 4 = Done (charCodes "data")
    /\ DataView.getUint32 bytes 40 = Done (ToUint32 dataSize)
    /\ forall k : nat, (k < List.length data)%nat ->
         DataView.getInt16 bytes (44 + 2 * Z.of_nat k) = Done (pcm16 (nth k data 0%Q)).
Proof.
  intros sampleRate data dataSize.
  assert (Hcount : dataSize = 2 * Z.of_nat (List.length data)).
  { unfold dataSize, Float32Array.len. lia. }
  rewrite audioBufferToWavBlob_bytes.
  fold sampleRate data dataSize.
  clearbody dataSize sampleRate.
  eexists; split; [reflexivity|].
  unfold DataView.getUint32, DataView.getUint16, DataView.getInt16.
  repeat split.
  - unfold DataView.byteLength.
    rewrite length_app, wav_header_length, pcm_bytes_length. lia.
  - read_field. reflexivity.
  - read_field. now rewrite uint32_bytes_roundtrip.
  - read_field. reflexivity.
  - read_field. reflexivity.
  - read_field. now rewrite uint32_bytes_roundtrip.
  - read_field. now rewrite uint16_bytes_roundtrip.
  - read_field. now rewrite uint16_bytes_roundtrip.
  - read_field. now rewrite uint32_bytes_roundtrip.
  - read_field. now rewrite uint32_bytes_roundtrip.
  - read_field. now rewrite uint16_bytes_roundtrip.
  - read_field. now rewrite uint16_bytes_roundtrip.
  - read_field. reflexivity.
  - read_field. now rewrite uint32_bytes_roundtrip.
  - intros k Hk.
    rewrite <- (app_nil_r (pcm_bytes data)).
    read_field. rewrite int16_bytes_roundtrip. f_equal.
    apply ToInt16_small. unfold pcm16. apply ToInt16_range.
Qed.

(** C8: the encoder returns the 44-byte header of section 6 followed by
    two bytes per sample, when the sample rate and the sizes fit their
    unsigned 32-bit fields. *)
Theorem C8_wav_container_layout (buffer : AudioBuffer.t) :
  let sampleRate := AudioBuffer.sampleRate buffer in
  let data := AudioBuffer.getChannelData0 buffer in
  let sampleCount := Float32Array.len data in
  let dataSize := sampleCount * 2 in
  0 <= sampleRate < 2 ^ 31 ->
  36 + dataSize < 2 ^ 32 ->
  exists bytes,
    audioBufferToWavBlob buffer = Done bytes
    /\ DataView.byteLength bytes = 44 + dataSize
    /\ DataView.load bytes 0 4 = Done (charCodes "RIFF")
    /\ DataView.getUint32 bytes 4 = Done (36 + dataSize)
    /\ DataView.load bytes 8 4 = Done (charCodes "WAVE")
    /\ DataView.load bytes 12 4 = Done (charCodes "fmt ")
    /\ DataView.getUint32 bytes 16 = Done 16
    /\ DataView.getUint16 bytes 20 = Done 1
    /\ DataView.getUint16 bytes 22 = Done 1
    /\ DataView.getUint32 bytes 24 = Done sampleRate
    /\ DataView.getUint32 bytes 28 = Done (sampleRate * 2)
    /\ DataView.getUint16 bytes 32 = Done 2
    /\ DataView.getUint16 bytes 34 = Done 16
    /\ DataView.load bytes 36 4 = Done (charCodes "data")
    /\ DataView.getUint32 bytes 40 = Done dataSize
    /\ forall k : nat, (k < List.length data)%nat ->
         DataView.getInt16 bytes (44 + 2 * Z.of_nat k) = Done (pcm16 (nth k data 0%Q)).
Proof.
  intros sampleRate data sampleCount dataSize Hrate Hsize.
  assert (Hcount : 0 <= dataSize).
  { unfold dataSize, sampleCount, Float32Array.len. lia. }
  destruct (wav_container_fields buffer)
    as (bytes & Hbytes & Hlen & Hriff & Hchunk & Hwave & Hfmt & Hfmtsize & Hformat
        & Hchannels & Hsr & Hbyterate & Halign & Hbits & Hdata & Hdatasize & Hpcm).
  fold sampleRate data sampleCount dataSize in Hlen, Hchunk, Hsr, Hbyterate, Hdatasize, Hpcm.
  rewrite ToUint32_small in Hchunk, Hsr, Hbyterate, Hdatasize by lia.
  exists bytes. repeat (split; [assumption|]). exact Hpcm.
Qed.

Lemma C8_wav_container_layout_witness :
  exists bytes,
    audioBufferToWavBlob (AudioBuffer.createMono [1%Q; (-1)%Q; 0.125%Q] 16000) = Done bytes
    /\ DataView.byteLength bytes = 50
    /\ DataView.getUint32 bytes 4 = Done 42
    /\ DataView.getUint32 bytes 24 = Done 16000
    /\ DataView.getUint32 bytes 28 = Done 32000
    /\ DataView.getUint32 bytes 40 = Done 6
    /\ DataView.getInt16 bytes 44 = Done 32767
    /\ DataView.getInt16 bytes 46 = Done (-32768)
    /\ DataView.getInt16 bytes 48 = Done 4095.
Proof.
  destruct (C8_wav_container_layout (AudioBuffer.createMono [1%Q; (-1)%Q; 0.125%Q] 16000))
    as (bytes & Hbytes & Hlen & _ & Hsize & _ & _ & _ & _ & _ & Hrate & Hbyterate
        & _ & _ & _ & Hdata & Hpcm).
  - simpl. lia.
  - simpl. lia.
  - exists bytes. repeat split; try assumption.
    + exact (Hpcm 0%nat ltac:(simpl; lia)).
    + exact (Hpcm 1%nat ltac:(simpl; lia)).
    + exact (Hpcm 2%nat ltac:(simpl; lia)).
Defined.

(** ** The merge pass *)

Lemma merge_push_snoc (gap : Z) (merged : list segment) (prev seg : segment) :
  merge_push gap (merged ++ [prev]) seg
  = if fst seg - snd prev <=? gap
    then merged ++ [(fst prev, snd seg)]
    else (merged ++ [prev]) ++ [seg].
Proof.
  unfold merge_push.
  destruct (merged ++ [prev]) as [|a l] eqn:E.
  - destruct merged; discriminate.
  - rewrite <- E, last_last, removelast_last. reflexivity.
Qed.

Lemma merge_fold_after (gap : Z) (segs merged : list segment) (prev : segment) :
  fold_left (merge_push gap) segs (merged ++ [prev])
  = merged ++ merge_after gap prev segs.
Proof.
  revert merged prev; induction segs as [|seg segs IH]; intros merged prev.
  - reflexivity.
  - cbn [fold_left merge_after]. rewrite merge_push_snoc.
    destruct (fst seg - snd prev <=? gap).
    + apply IH.
    + rewrite IH, <- app_assoc. reflexivity.
Qed.

Lemma merge_segments_spec (gap : Z) (segs : list segment) :
  merge_segments gap segs = merge_spec gap segs.
Proof.
  destruct segs as [|seg segs]; [reflexivity|].
  unfold merge_segments, merge_spec. cbn [fold_left merge_push].
  apply (merge_fold_after gap segs [] seg).
Qed.

Lemma merge_after_length (gap : Z) (segs : list segment) (accepted : segment) :
  (1 <= List.length (merge_after gap accepted segs) <= S (List.length segs))%nat.
Proof.
  revert accepted; induction segs as [|seg segs IH]; intros accepted.
  - simpl. lia.
  - cbn [merge_after List.length].
    destruct (fst seg - snd accepted <=? gap).
    + specialize (IH (fst accepted, snd seg)). lia.
    + specialize (IH seg). cbn [List.length]. lia.
Qed.

Lemma merge_spec_length (gap : Z) (segs : list segment) :
  (List.length (merge_spec gap segs) <= List.length segs)%nat.
Proof.
  destruct segs as [|seg segs]; [simpl; lia|].
  apply (merge_after_length gap segs seg).
Qed.

Lemma merge_after_head (gap : Z) (segs : list segment) (accepted : segment) :
  exists e rest, merge_after gap accepted segs = (fst accepted, e) :: rest.
Proof.
  revert accepted; induction segs as [|seg segs IH]; intros [s e].
  - simpl. eauto.
  - cbn [merge_after]. destruct (fst seg - snd (s, e) <=? gap).
    + apply (IH (fst (s, e), snd seg)).
    + simpl. eauto.
Qed.

(** Merging keeps a list of valid, ordered segments valid and ordered. *)
Lemma merge_after_chain (N gap : Z) (segs : list segment) (accepted : segment) :
  Forall (valid_segment N) (accepted :: segs) -> ordered (accepted :: segs) ->
  Forall (valid_segment N) (merge_after gap accepted segs)
  /\ ordered (merge_after gap accepted segs).
Proof.
  revert accepted; induction segs as [|seg segs IH]; intros accepted Hvalid Hord.
  - simpl. auto.
  - cbn [merge_after].
    inversion Hvalid as [|? ? Hacc Hrest]; subst.
    inversion Hrest as [|? ? Hseg Hsegs]; subst.
    destruct Hord as [[Hsep Hasc] Hord'].
    unfold valid_segment in Hacc, Hseg.
    destruct (fst seg - snd accepted <=? gap).
    + apply IH.
      * constructor; [|exact Hsegs]. unfold valid_segment. simpl. lia.
      * destruct segs as [|next segs]; [simpl; auto|].
        destruct Hord' as [[Hsep' Hasc'] Hord''].
        split; [simpl; lia | exact Hord''].
    + destruct (IH seg Hrest Hord') as [Hv Ho].
      split; [constructor; assumption|].
      destruct (merge_after_head gap segs seg) as (e & rest & Heq).
      rewrite Heq in *. split; [simpl; lia | exact Ho].
Qed.

Lemma merge_spec_chain (N gap : Z) (segs : list segment) :
  Forall (valid_segment N) segs -> ordered segs ->
  Forall (valid_segment N) (merge_spec gap segs) /\ ordered (merge_spec gap segs).
Proof.
  destruct segs as [|seg segs]; [simpl; auto|].
  apply merge_after_chain.
Qed.

(** ** The scan *)

Lemma ordered_snoc (segs : list segment) (seg : segment) :
  ordered segs ->
  Forall (fun a => 0 <= fst a /\ fst a < snd a) segs ->
  Forall (fun a => snd a <= fst seg) segs ->
  ordered (segs ++ [seg]).
Proof.
  induction segs as [|a segs IH]; intros Hord Hpos Hend.
  - simpl. auto.
  - inversion Hpos as [|? ? Ha Hpos']; subst.
    inversion Hend as [|? ? Hae Hend']; subst.
    destruct Hord as [Hadj Hord'].
    cbn [app ordered]. split; [|apply IH; assumption].
    destruct segs as [|b segs]; [simpl; lia | exact Hadj].
Qed.

Lemma Forall_le_trans (segs : list segment) (a b : Z) :
  a <= b -> Forall (fun seg : segment => snd seg <= a) segs ->
  Forall (fun seg : segment => snd seg <= b) segs.
Proof. intros Hab H. eapply Forall_impl; [|exact H]. simpl. intros; lia. Qed.

Lemma scan_inv_init : scan_inv 0 scan_init.
Proof. unfold scan_inv, scan_init. simpl. repeat split; auto; lia. Qed.

Lemma scan_step_inv (silenceThreshold : Q) (minSilenceSamples i : Z) (x : Q)
    (st : scan_state) :
  0 <= i -> scan_inv i st ->
  scan_inv (i + 1) (scan_step silenceThreshold minSilenceSamples i x st).
Proof.
  intros Hi (Hpos & Hord & Hrun & Hstart & Hlim).
  unfold scan_step, scan_inv.
  destruct (Qltb (Qabs x) silenceThreshold).
  - revert Hlim. destruct (inSilence st); cbn [negb andb]; intros Hlim.
    + cbn [segments inSilence silenceRun currentSpeechStart].
      repeat split; try assumption; try lia.
      eapply Forall_le_trans; [|exact Hlim]. lia.
    + destruct Hlim as (Hends & Hle & Hzero).
      destruct (minSilenceSamples <=? silenceRun st + 1);
        cbn [segments inSilence silenceRun currentSpeechStart].
      * destruct (Z.ltb_spec (currentSpeechStart st) (Z.max 0 (i - (silenceRun st + 1))))
          as [Hlt|Hge].
        -- assert (Hmax : Z.max 0 (i - (silenceRun st + 1)) = i - (silenceRun st + 1)) by lia.
           rewrite Hmax in *.
           repeat split; try assumption; try lia.
           ++ apply Forall_app; split; [exact Hpos|].
              constructor; [simpl; lia | constructor].
           ++ apply ordered_snoc; assumption.
           ++ apply Forall_app; split.
              ** eapply Forall_le_trans; [|exact Hends]. lia.
              ** constructor; [simpl; lia | constructor].
        -- repeat split; try assumption; try lia.
           eapply Forall_le_trans; [|exact Hends]. lia.
      * repeat split; try assumption; try lia.
  - cbn [segments inSilence silenceRun currentSpeechStart].
    revert Hlim. destruct (inSilence st); intros Hlim.
    + repeat split; try assumption; try lia.
      eapply Forall_le_trans; [|exact Hlim]. lia.
    + destruct Hlim as (Hends & Hle & Hzero).
      repeat split; try assumption; try lia.
Qed.

Lemma scan_from_inv (silenceThreshold : Q) (minSilenceSamples : Z)
    (rest : list Q) (i : Z) (st : scan_state) :
  0 <= i -> scan_inv i st ->
  scan_inv (i + Z.of_nat (List.length rest))
    (scan_from silenceThreshold minSilenceSamples i rest st).
Proof.
  revert i st; induction rest as [|x rest IH]; intros i st Hi Hinv.
  - simpl. now rewrite Z.add_0_r.
  - cbn [scan_from List.length]. rewrite Nat2Z.inj_succ.
    replace (i + Z.succ (Z.of_nat (List.length rest)))
      with (i + 1 + Z.of_nat (List.length rest)) by lia.
    apply IH; [lia|]. now apply scan_step_inv.
Qed.

Lemma scan_invariant (silenceThreshold : Q) (minSilenceSamples : Z)
    (channelData : Float32Array.t) :
  scan_inv (Float32Array.len channelData)
    (scan silenceThreshold minSilenceSamples channelData).
Proof.
  unfold scan, Float32Array.len.
  apply (scan_from_inv _ _ channelData 0 scan_init); [lia | apply scan_inv_init].
Qed.

Lemma scan_from_app (silenceThreshold : Q) (minSilenceSamples : Z)
    (a b : list Q) (i : Z) (st : scan_state) :
  scan_from silenceThreshold minSilenceSamples i (a ++ b) st
  = scan_from silenceThreshold minSilenceSamples (i + Z.of_nat (List.length a)) b
      (scan_from silenceThreshold minSilenceSamples i a st).
Proof.
  revert i st; induction a as [|x a IH]; intros i st.
  - simpl. now rewrite Z.add_0_r.
  - cbn [app scan_from List.length]. rewrite IH. f_equal. lia.
Qed.

(** Scanning one more sample is one more step. *)
Lemma scan_snoc (silenceThreshold : Q) (minSilenceSamples : Z)
    (prefix : list Q) (x : Q) :
  scan silenceThreshold minSilenceSamples (prefix ++ [x])
  = scan_step silenceThreshold minSilenceSamples (Float32Array.len prefix) x
      (scan silenceThreshold minSilenceSamples prefix).
Proof. unfold scan. rewrite scan_from_app. reflexivity. Qed.

(** In a state the scan can reach the guard [Math.max(0, .)] changes nothing:
    the step is the one the specification words. *)
Lemma scan_step_spec (silenceThreshold : Q) (minSilenceSamples i : Z) (x : Q)
    (st : scan_state) :
  0 <= currentSpeechStart st ->
  scan_step silenceThreshold minSilenceSamples i x st
  = spec_scan_step silenceThreshold minSilenceSamples i x st.
Proof.
  intros Hstart. unfold scan_step, spec_scan_step, Qltb, seg_length.
  destruct (Qle_bool silenceThreshold (Qabs x)); cbn [negb].
  - reflexivity.
  - destruct (inSilence st) eqn:Hsil; cbn [negb andb].
    + destruct st; simpl in *; now subst.
    + destruct (Z.leb_spec minSilenceSamples (silenceRun st + 1)) as [Hm|Hm];
        destruct (Z.ltb_spec (silenceRun st + 1) minSilenceSamples); try lia.
      * cbn [fst snd].
        destruct (Z.ltb_spec (currentSpeechStart st) (Z.max 0 (i - (silenceRun st + 1))));
          destruct (Z.ltb_spec 0 (i - (silenceRun st + 1) - currentSpeechStart st));
          try lia; try reflexivity.
        replace (Z.max 0 (i - (silenceRun st + 1))) with (i - (silenceRun st + 1)) by lia.
        reflexivity.
      * destruct st; simpl in *; now subst.
Qed.

(** ** The segment list before merging *)

Lemma raw_segments_empty (silenceThreshold : Q) (minSilenceSamples : Z) :
  raw_segments [] silenceThreshold minSilenceSamples = [(0, 0)].
Proof. reflexivity. Qed.

Lemma fallback_nonempty (N : Z) (segs : list segment) : fallback_rule N segs <> [].
Proof. destruct segs; simpl; discriminate. Qed.

Lemma raw_segments_chain (channelData : Float32Array.t) (silenceThreshold : Q)
    (minSilenceSamples : Z) :
  channelData <> [] ->
  let N := Float32Array.len channelData in
  Forall (valid_segment N) (raw_segments channelData silenceThreshold minSilenceSamples)
  /\ ordered (raw_segments channelData silenceThreshold minSilenceSamples).
Proof.
  intros Hne N.
  assert (HN : 0 < N).
  { unfold N, Float32Array.len. destruct channelData; [congruence | simpl; lia]. }
  unfold raw_segments. fold N.
  pose proof (scan_invariant silenceThreshold minSilenceSamples channelData) as Hinv.
  fold N in Hinv.
  set (st := scan silenceThreshold minSilenceSamples channelData) in *. clearbody st.
  destruct Hinv as (Hpos & Hord & Hrun & Hstart & Hlim).
  assert (Htail : Forall (valid_segment N) (tail_rule N st) /\ ordered (tail_rule N st)).
  { unfold tail_rule. revert Hlim. destruct (inSilence st); cbn [negb andb]; intros Hlim.
    - split; [|exact Hord].
      rewrite Forall_forall in *. intros seg Hin.
      specialize (Hpos seg Hin). specialize (Hlim seg Hin).
      unfold valid_segment. lia.
    - destruct Hlim as (Hends & Hle & Hzero).
      destruct (Z.ltb_spec (currentSpeechStart st) N).
      + split.
        * apply Forall_app; split.
          -- rewrite Forall_forall in *. intros seg Hin.
             specialize (Hpos seg Hin). specialize (Hends seg Hin).
             unfold valid_segment. lia.
          -- constructor; [unfold valid_segment; simpl; lia | constructor].
        * apply ordered_snoc; assumption.
      + split; [|exact Hord].
        rewrite Forall_forall in *. intros seg Hin.
        specialize (Hpos seg Hin). specialize (Hends seg Hin).
        unfold valid_segment. lia. }
  destruct (tail_rule N st) as [|seg segs]; [|exact Htail].
  simpl. split; [|auto].
  constructor; [unfold valid_segment; simpl; lia | constructor].
Qed.

Lemma detectSpeechSegments_spec {R : Rounding} (channelData : Float32Array.t)
    (sampleRate : Z) (silenceThreshold : Q) (minSilenceSamples : Z) :
  detectSpeechSegments channelData sampleRate silenceThreshold minSilenceSamples
  = merge_spec (MERGE_GAP_SAMPLES sampleRate)
      (raw_segments channelData silenceThreshold minSilenceSamples).
Proof. unfold detectSpeechSegments. apply merge_segments_spec. Qed.

Lemma detectSpeechSegments_empty {R : Rounding} (sampleRate : Z)
    (silenceThreshold : Q) (minSilenceSamples : Z) :
  detectSpeechSegments [] sampleRate silenceThreshold minSilenceSamples = [(0, 0)].
Proof. reflexivity. Qed.

Lemma detectSpeechSegments_chain {R : Rounding} (channelData : Float32Array.t)
    (sampleRate : Z) (silenceThreshold : Q) (minSilenceSamples : Z) :
  channelData <> [] ->
  let segs :=
    detectSpeechSegments channelData sampleRate silenceThreshold minSilenceSamples in
  Forall (valid_segment (Float32Array.len channelData)) segs /\ ordered segs.
Proof.
  intros Hne segs. unfold segs. rewrite detectSpeechSegments_spec.
  destruct (raw_segments_chain channelData silenceThreshold minSilenceSamples Hne).
  now apply merge_spec_chain.
Qed.

(** C3 (amended): for a buffer of [N >= 1] samples every segment of the list
    before merging and of the merged list satisfies [0 <= start < end <= N];
    for the empty buffer both lists are the single zero-length segment
    [(0, 0)]. *)
Theorem C3_segments_valid {R : Rounding} (channelData : Float32Array.t)
    (sampleRate : Z) (silenceThreshold : Q) (minSilenceSamples : Z) :
  let N := Float32Array.len channelData in
  (channelData <> [] ->
   Forall (valid_segment N)
     (raw_segments channelData silenceThreshold minSilenceSamples)
   /\ Forall (valid_segment N)
        (detectSpeechSegments channelData sampleRate silenceThreshold minSilenceSamples))
  /\ raw_segments [] silenceThreshold minSilenceSamples = [(0, 0)]
  /\ detectSpeechSegments [] sampleRate silenceThreshold minSilenceSamples = [(0, 0)].
Proof.
  intros N. split; [|split; reflexivity].
  intros Hne. split.
  - apply raw_segments_chain, Hne.
  - apply detectSpeechSegments_chain, Hne.
Qed.

Lemma C3_segments_valid_witness :
  Forall (valid_segment 6)
    (raw_segments [0.5; 0.5; 0; 0; 0; 0.5]%Q 0.01%Q 2)
  /\ Forall (valid_segment 6)
       (detectSpeechSegments (R := exact_arith) [0.5; 0.5; 0; 0; 0; 0.5]%Q 100 0.01%Q 2).
Proof.
  apply (C3_segments_valid (R := exact_arith) [0.5; 0.5; 0; 0; 0; 0.5]%Q 100 0.01%Q 2).
  discriminate.
Defined.

(** C3 (as stated) fails for [N = 0]: the fallback turns the empty buffer
    into the zero-length segment [(0, 0)]. *)
Lemma C3_empty_buffer_counterexample :
  detectSpeechSegments (R := exact_arith) [] 16000 0.015%Q 3200 = [(0, 0)]
  /\ ~ valid_segment 0 (0, 0).
Proof.
  split; [reflexivity|]. unfold valid_segment. simpl. lia.
Qed.

(** C6: scanning one more sample performs the step of the specification:
    a sample with [|x| < silenceThreshold] increments the silence counter, a
    sample at the threshold resets it, the segment [(speechStart, i -
    silenceRun)] is closed when the counter reaches [minSilenceSamples]
    outside silence and its length is positive; a scan that ends in silence
    closes no further segment, and a scan that ends outside silence leaves
    [(speechStart, N)] as the last segment, closed by the tail rule when the
    buffer is not empty. *)
Theorem C6_scan_step_and_tail (silenceThreshold : Q) (minSilenceSamples : Z)
    (prefix : list Q) (x : Q) (channelData : Float32Array.t) :
  let i := Float32Array.len prefix in
  let st := scan silenceThreshold minSilenceSamples prefix in
  let st' := scan silenceThreshold minSilenceSamples (prefix ++ [x]) in
  let N := Float32Array.len channelData in
  let final := scan silenceThreshold minSilenceSamples channelData in
  st' = spec_scan_step silenceThreshold minSilenceSamples i x st
  /\ ((Qabs x < silenceThreshold)%Q -> silenceRun st' = silenceRun st + 1)
  /\ ((Qabs x == silenceThreshold)%Q -> silenceRun st' = 0 /\ inSilence st' = false)
  /\ (inSilence final = true -> tail_rule N final = segments final)
  /\ (inSilence final = false -> channelData <> [] ->
      tail_rule N final = segments final ++ [(currentSpeechStart final, N)])
  /\ (inSilence final = false ->
      raw_segments channelData silenceThreshold minSilenceSamples
      = segments final ++ [(currentSpeechStart final, N)]).
Proof.
  intros i st st' N final.
  assert (Hstep : st' = spec_scan_step silenceThreshold minSilenceSamples i x st).
  { unfold st'. rewrite scan_snoc. apply scan_step_spec.
    apply (scan_invariant silenceThreshold minSilenceSamples prefix). }
  split; [exact Hstep|].
  split; [|split; [|split; [|split]]].
  - intros Hlt. rewrite Hstep. unfold spec_scan_step.
    destruct (Qle_bool silenceThreshold (Qabs x)) eqn:Hle.
    + apply Qle_bool_iff in Hle. exfalso. apply (Qlt_not_le _ _ Hlt Hle).
    + destruct (inSilence st); [reflexivity|].
      destruct (silenceRun st + 1 <? minSilenceSamples); reflexivity.
  - intros Heq. rewrite Hstep. unfold spec_scan_step.
    destruct (Qle_bool silenceThreshold (Qabs x)) eqn:Hle.
    + split; reflexivity.
    + exfalso. apply not_true_iff_false in Hle. apply Hle.
      apply Qle_bool_iff. rewrite Heq. apply Qle_refl.
  - intros Hfinal. unfold tail_rule. now rewrite Hfinal.
  - intros Hfinal Hne. unfold tail_rule.
    pose proof (scan_invariant silenceThreshold minSilenceSamples channelData)
      as (_ & _ & _ & Hstart & Hlim).
    fold final N in Hstart, Hlim. rewrite Hfinal in *. cbn [negb andb].
    destruct Hlim as (_ & _ & Hzero).
    assert (HN : 0 < N).
    { unfold N, Float32Array.len. destruct channelData; [congruence | simpl; lia]. }
    destruct (Z.ltb_spec (currentSpeechStart final) N); [reflexivity | lia].
  - intros Hfinal. unfold raw_segments, tail_rule.
    pose proof (scan_invariant silenceThreshold minSilenceSamples channelData)
      as (_ & _ & Hrun & Hstart & Hlim).
    fold final N in Hrun, Hstart, Hlim |- *.
    rewrite Hfinal in *. cbn [negb andb].
    destruct Hlim as (_ & Hle & Hzero).
    destruct (Z.ltb_spec (currentSpeechStart final) N) as [Hlt|Hge].
    + destruct (segments final); reflexivity.
    + assert (HN : N = 0) by lia.
      assert (Hnil : channelData = []).
      { unfold N, Float32Array.len in HN.
        destruct channelData; [reflexivity | simpl in HN; lia]. }
      subst channelData. reflexivity.
Qed.

Lemma C6_scan_step_and_tail_witness :
  scan 0.01%Q 3 ([0.5; 0.5; 0; 0]%Q ++ [0%Q])
  = spec_scan_step 0.01%Q 3 4 0%Q (scan 0.01%Q 3 [0.5; 0.5; 0; 0]%Q)
  /\ silenceRun (scan 0.01%Q 3 ([0.5; 0.5; 0; 0]%Q ++ [0%Q])) = 2 + 1
  /\ tail_rule 6 (scan 0.01%Q 3 [0.5; 0; 0; 0; 0.5; 0.5]%Q) = [] ++ [(4, 6)]
  /\ raw_segments [0.5; 0; 0; 0; 0.5; 0.5]%Q 0.01%Q 3 = [] ++ [(4, 6)].
Proof.
  destruct (C6_scan_step_and_tail 0.01%Q 3 [0.5; 0.5; 0; 0]%Q 0%Q
              [0.5; 0; 0; 0; 0.5; 0.5]%Q) as (Hstep & Hsilent & _ & _ & Htail & Hraw).
  split; [exact Hstep|]. split; [|split].
  - apply Hsilent. reflexivity.
  - apply Htail; [reflexivity | discriminate].
  - apply Hraw. reflexivity.
Defined.

(** C7: the merge pass always runs, with the gap [Math.floor(sampleRate *
    0.03)] that depends on the sample rate alone; it is the walk of the
    specification (a segment whose gap to the segment accepted last is at
    most the constant extends that segment's end, any other is appended),
    and its result has no more entries than its input. *)
Theorem C7_merge_pass {R : Rounding} (channelData : Float32Array.t)
    (sampleRate : Z) (silenceThreshold : Q) (minSilenceSamples : Z)
    (gap : Z) (segs : list segment) :
  detectSpeechSegments channelData sampleRate silenceThreshold minSilenceSamples
  = merge_spec (Math_floor (fl (inject_Z sampleRate * fl 0.03)))
      (raw_segments channelData silenceThreshold minSilenceSamples)
  /\ merge_segments gap segs = merge_spec gap segs
  /\ (List.length (merge_segments gap segs) <= List.length segs)%nat.
Proof.
  split; [apply detectSpeechSegments_spec|].
  split; [apply merge_segments_spec|].
  rewrite merge_segments_spec. apply merge_spec_length.
Qed.

(** C9: the list returned by segmentation followed by merging is non-empty,
    ascending and non-overlapping: each segment ends no later than the next
    one starts. *)
Theorem C9_segments_nonempty_ordered {R : Rounding} (channelData : Float32Array.t)
    (sampleRate : Z) (silenceThreshold : Q) (minSilenceSamples : Z) :
  let segs :=
    detectSpeechSegments channelData sampleRate silenceThreshold minSilenceSamples in
  segs <> [] /\ ordered segs.
Proof.
  intros segs. unfold segs. split.
  - rewrite detectSpeechSegments_spec. unfold raw_segments.
    destruct (fallback_rule _ _) as [|seg rest] eqn:E.
    + exfalso. now apply fallback_nonempty in E.
    + cbn [merge_spec].
      pose proof (merge_after_length (MERGE_GAP_SAMPLES sampleRate) rest seg) as H.
      destruct (merge_after _ seg rest); [simpl in H; lia | discriminate].
  - destruct channelData as [|x channelData].
    + rewrite detectSpeechSegments_empty. simpl. auto.
    + apply detectSpeechSegments_chain. discriminate.
Qed.

(** ** Float32Array operations inside their bounds *)

Lemma Forall_firstn_skipn {A : Type} (P : A -> Prop) (n m : nat) (l : list A) :
  Forall P l -> Forall P (firstn n (skipn m l)).
Proof.
  intros H.
  rewrite <- (firstn_skipn m l) in H. apply Forall_app in H. destruct H as [_ H].
  rewrite <- (firstn_skipn n (skipn m l)) in H. apply Forall_app in H. tauto.
Qed.

Lemma relative_inside (length k : Z) :
  0 <= k <= length -> Float32Array.relative length k = k.
Proof.
  intros H. unfold Float32Array.relative.
  destruct (Z.ltb_spec k 0); lia.
Qed.

Lemma subarray_inside (a : Float32Array.t) (s e : Z) :
  within (Float32Array.len a) (s, e) ->
  Float32Array.subarray a s e = firstn (Z.to_nat (e - s)) (skipn (Z.to_nat s) a).
Proof.
  unfold within. cbn [fst snd]. intros H. unfold Float32Array.subarray.
  rewrite !relative_inside by lia. f_equal. lia.
Qed.

Lemma subarray_length (a : Float32Array.t) (s e : Z) :
  within (Float32Array.len a) (s, e) ->
  Float32Array.len (Float32Array.subarray a s e) = e - s.
Proof.
  intros H. rewrite subarray_inside by exact H.
  unfold within, Float32Array.len in *. cbn [fst snd] in H.
  rewrite length_firstn, length_skipn. lia.
Qed.

Lemma subarray_Forall (P : Q -> Prop) (a : Float32Array.t) (s e : Z) :
  Forall P a -> Forall P (Float32Array.subarray a s e).
Proof. intros H. unfold Float32Array.subarray. now apply Forall_firstn_skipn. Qed.

Lemma subarray_from_length (a : Float32Array.t) (k : Z) :
  0 <= k <= Float32Array.len a ->
  Float32Array.len (Float32Array.subarray_from a k) = Float32Array.len a - k.
Proof.
  intros H. unfold Float32Array.subarray_from.
  apply subarray_length. unfold within. cbn [fst snd]. lia.
Qed.

Lemma subarray_whole (a : Float32Array.t) :
  Float32Array.subarray a 0 (Float32Array.len a) = a.
Proof.
  rewrite subarray_inside by (unfold within, Float32Array.len; cbn [fst snd]; lia).
  cbn [Z.to_nat skipn]. rewrite Z.sub_0_r.
  unfold Float32Array.len. rewrite Nat2Z.id. apply firstn_all.
Qed.

Lemma set_inside (P : Q -> Prop) (a src : Float32Array.t) (pos : Z) :
  0 <= pos -> pos + Float32Array.len src <= Float32Array.len a ->
  exists out,
    Float32Array.set a src pos = Done out
    /\ Float32Array.len out = Float32Array.len a
    /\ (Forall P a -> Forall P src -> Forall P out).
Proof.
  unfold Float32Array.set, Float32Array.len. intros Hpos Hfit.
  replace (pos <? 0) with false by (symmetry; apply Z.ltb_ge; lia).
  replace (Z.of_nat (List.length a) <? pos + Z.of_nat (List.length src)) with false
    by (symmetry; apply Z.ltb_ge; lia).
  cbn [orb]. eexists; split; [reflexivity|]. split.
  - rewrite !length_app, length_firstn, length_skipn. lia.
  - intros Ha Hsrc. rewrite !Forall_app. repeat split.
    + rewrite <- (firstn_skipn (Z.to_nat pos) a) in Ha.
      apply Forall_app in Ha. tauto.
    + exact Hsrc.
    + rewrite <- (firstn_skipn (Z.to_nat pos + List.length src) a) in Ha.
      apply Forall_app in Ha. tauto.
Qed.

Lemma get_inside (P : Q -> Prop) (a : Float32Array.t) (k : Z) :
  0 <= k < Float32Array.len a ->
  exists v, Float32Array.get a k = Done v /\ (Forall P a -> P v).
Proof.
  unfold Float32Array.get, Float32Array.len. intros H.
  replace (0 <=? k) with true by (symmetry; apply Z.leb_le; lia).
  replace (k <? Z.of_nat (List.length a)) with true by (symmetry; apply Z.ltb_lt; lia).
  cbn [andb]. eexists; split; [reflexivity|].
  intros Ha. rewrite Forall_forall in Ha. apply Ha, nth_In. lia.
Qed.

Lemma put_length (a : Float32Array.t) (k : Z) (v : Q) :
  Float32Array.len (Float32Array.put a k v) = Float32Array.len a.
Proof.
  unfold Float32Array.put, Float32Array.len.
  destruct (Z.leb_spec 0 k); destruct (Z.ltb_spec k (Z.of_nat (List.length a)));
    cbn [andb]; try reflexivity.
  rewrite length_app. cbn [List.length]. rewrite length_firstn, length_skipn. lia.
Qed.

Lemma put_Forall (P : Q -> Prop) (a : Float32Array.t) (k : Z) (v : Q) :
  Forall P a -> P v -> Forall P (Float32Array.put a k v).
Proof.
  intros Ha Hv. unfold Float32Array.put.
  destruct ((0 <=? k) && (k <? Float32Array.len a)); [|exact Ha].
  apply Forall_app; split.
  - rewrite <- (firstn_skipn (Z.to_nat k) a) in Ha. apply Forall_app in Ha. tauto.
  - constructor; [exact Hv|].
    rewrite <- (firstn_skipn (S (Z.to_nat k)) a) in Ha. apply Forall_app in Ha. tauto.
Qed.

Lemma new_inside (P : Q -> Prop) (n : Z) :
  0 <= n ->
  exists out,
    Float32Array.new n = Done out /\ Float32Array.len out = n /\ (P 0%Q -> Forall P out).
Proof.
  intros Hn. unfold Float32Array.new.
  replace (n <? 0) with false by (symmetry; apply Z.ltb_ge; lia).
  eexists; split; [reflexivity|]. split.
  - unfold Float32Array.len. rewrite repeat_length. lia.
  - intros H0. apply Forall_forall. intros x Hin.
    apply repeat_spec in Hin. now subst.
Qed.

(** ** The length computed by the first loop of the stitcher *)

Lemma total_loop_acc (overlapSamples : Z) (segs : list segment)
    (prev : option segment) (total : Z) :
  total_loop overlapSamples prev segs total
  = total + total_loop overlapSamples prev segs 0.
Proof.
  revert prev total; induction segs as [|[s e] segs IH]; intros prev total.
  - simpl. lia.
  - cbn [total_loop]. rewrite IH. rewrite (IH _ (match prev with None => _ | Some _ => _ end)).
    destruct prev as [[ps pe]|]; lia.
Qed.

Lemma total_loop_cons (overlapSamples : Z) (seg : segment) (segs : list segment)
    (prev : option segment) :
  total_loop overlapSamples prev (seg :: segs) 0
  = seg_length seg
    - match prev with
      | None => 0
      | Some p => overlap overlapSamples (seg_length p) (seg_length seg)
      end
    + total_loop overlapSamples (Some seg) segs 0.
Proof.
  destruct seg as [s e]. cbn [total_loop]. rewrite total_loop_acc.
  unfold seg_length. cbn [fst snd].
  destruct prev as [[ps pe]|]; cbn [fst snd]; lia.
Qed.

(** The first loop computes the length the specification states. *)
Lemma total_loop_spec (overlapSamples : Z) (segs : list segment) (prev : option segment) :
  total_loop overlapSamples prev segs 0
  = match prev with
    | None => stitched_length overlapSamples segs
    | Some p => stitched_length overlapSamples (p :: segs) - seg_length p
    end.
Proof.
  revert prev; induction segs as [|seg segs IH]; intros prev.
  - destruct prev; unfold stitched_length; simpl; lia.
  - rewrite total_loop_cons, IH.
    unfold stitched_length. destruct prev as [p|].
    + cbn [sum_lengths fold_right sum_overlaps]. fold (sum_lengths segs). lia.
    + cbn [sum_lengths fold_right]. fold (sum_lengths segs). lia.
Qed.

Lemma overlap_bounds (overlapSamples prevLen len : Z) :
  0 <= overlapSamples -> 0 <= prevLen -> 0 <= len ->
  0 <= overlap overlapSamples prevLen len
  /\ overlap overlapSamples prevLen len <= overlapSamples
  /\ overlap overlapSamples prevLen len <= prevLen
  /\ overlap overlapSamples prevLen len <= len.
Proof. unfold overlap. lia. Qed.

Lemma total_loop_nonneg (N overlapSamples : Z) (segs : list segment)
    (prev : option segment) :
  0 <= overlapSamples -> Forall (within N) segs ->
  match prev with None => True | Some p => within N p end ->
  0 <= total_loop overlapSamples prev segs 0.
Proof.
  intros Hov. revert prev; induction segs as [|seg segs IH]; intros prev Hsegs Hprev.
  - simpl. lia.
  - inversion Hsegs as [|? ? Hseg Hrest]; subst.
    rewrite total_loop_cons.
    specialize (IH (Some seg) Hrest Hseg).
    unfold within, seg_length in *.
    destruct prev as [p|].
    + pose proof (overlap_bounds overlapSamples (snd p - fst p) (snd seg - fst seg)). lia.
    + lia.
Qed.

(** ** The crossfade *)

Lemma fade_weight_range (i ov : Z) :
  0 <= i < ov -> (0 <= inject_Z i / inject_Z ov <= 1)%Q.
Proof.
  intros H.
  assert (Hov : (inject_Z 0 < inject_Z ov)%Q) by (rewrite <- Zlt_Qlt; lia).
  assert (Hi : (inject_Z 0 <= inject_Z i)%Q) by (rewrite <- Zle_Qle; lia).
  assert (Hle : (inject_Z i <= inject_Z ov)%Q) by (rewrite <- Zle_Qle; lia).
  change (inject_Z 0) with 0%Q in Hov, Hi.
  split.
  - apply Qle_shift_div_l; [exact Hov|]. lra.
  - apply Qle_shift_div_r; [exact Hov|]. lra.
Qed.


(** In exact arithmetic the crossfaded sample is the convex combination with
    weights [1 - i/ov] and [i/ov]. *)
Lemma crossfade_sample_exact (a b : Q) (i ov : Z) :
  0 <= i < ov ->
  let fadeIn := (inject_Z i / inject_Z ov)%Q in
  (crossfade_sample (R := exact_arith) a b i ov == a * (1 - fadeIn) + b * fadeIn)%Q
  /\ (0 <= fadeIn < 1)%Q.
Proof.
  intros Hi fadeIn. unfold crossfade_sample. cbn [fl fround exact_arith].
  replace (ov =? 0) with false by (symmetry; apply Z.eqb_neq; lia).
  split; [reflexivity|].
  assert (Hov : (inject_Z 0 < inject_Z ov)%Q) by (rewrite <- Zlt_Qlt; lia).
  assert (Hlt : (inject_Z i < inject_Z ov)%Q) by (rewrite <- Zlt_Qlt; lia).
  change (inject_Z 0) with 0%Q in Hov.
  split; [apply (fade_weight_range i ov Hi)|].
  unfold fadeIn. apply Qlt_shift_div_r; [exact Hov | lra].
Qed.

Lemma exact_arith_laws : RoundingLaws exact_arith.
Proof.
  constructor; simpl; intros; try reflexivity; try assumption; lra.
Qed.

(** ** The stitching loops *)

Section StitchLoops.

Context {R : Rounding}.

(** A property of samples that the source has and that crossfading with
    overlap [ov] keeps. *)
Variable P : Q -> Prop.
Variable source : Float32Array.t.
Variable overlapSamples : Z.

Hypothesis P_zero : P 0%Q.
Hypothesis P_source : Forall P source.
Hypothesis P_crossfade :
  forall (a b : Q) (i ov : Z), P a -> P b -> 0 <= i < ov -> P (crossfade_sample a b i ov).
Hypothesis overlap_nonneg : 0 <= overlapSamples.

Lemma crossfade_loop_inside (segView : Float32Array.t) (writePos ov : Z) (n : nat) :
  forall (i : Z) (out : Float32Array.t),
    0 <= i -> 0 <= writePos ->
    i + Z.of_nat n <= ov ->
    ov <= Float32Array.len segView ->
    writePos + ov <= Float32Array.len out ->
    Forall P out -> Forall P segView ->
    exists out',
      crossfade_loop out segView writePos ov n i = Done out'
      /\ Float32Array.len out' = Float32Array.len out
      /\ Forall P out'.
Proof.
  induction n as [|n IH]; intros i out Hi Hpos Hn Hview Hout Pout Pview.
  - simpl. eauto.
  - cbn [crossfade_loop].
    destruct (get_inside P out (writePos + i)) as (a & -> & Pa); [lia|].
    destruct (get_inside P segView i) as (b & -> & Pb); [lia|].
    rewrite !bind_Done.
    destruct (IH (i + 1) (Float32Array.put out (writePos + i) (crossfade_sample a b i ov)))
      as (out' & Hloop & Hlen & Pout'); try lia.
    + rewrite put_length. lia.
    + apply put_Forall; [exact Pout|]. apply P_crossfade; auto. lia.
    + exact Pview.
    + exists out'. rewrite put_length in Hlen. auto.
Qed.

Lemma stitch_loop_inside (segs : list segment) :
  forall (prev : option segment) (out : Float32Array.t) (writePos : Z),
    Forall (within (Float32Array.len source)) segs ->
    match prev with
    | None => True
    | Some p => within (Float32Array.len source) p /\ seg_length p <= writePos
    end ->
    0 <= writePos ->
    writePos + total_loop overlapSamples prev segs 0 <= Float32Array.len out ->
    Forall P out ->
    exists out',
      stitch_loop source overlapSamples prev segs out writePos
      = Done (out', writePos + total_loop overlapSamples prev segs 0)
      /\ Float32Array.len out' = Float32Array.len out
      /\ Forall P out'.
Proof.
  induction segs as [|[s e] segs IH]; intros prev out writePos Hsegs Hprev Hpos Hfit Pout.
  - simpl. rewrite Z.add_0_r. eauto.
  - inversion Hsegs as [|? ? Hseg Hrest]; subst.
    pose proof (subarray_length source s e Hseg) as Hview.
    pose proof (subarray_Forall P source s e P_source) as Pview.
    pose proof (total_loop_nonneg (Float32Array.len source) overlapSamples segs
                  (Some (s, e)) overlap_nonneg Hrest Hseg) as Hnonneg.
    rewrite total_loop_cons in Hfit |- *.
    unfold seg_length in Hfit |- *. cbn [fst snd] in Hfit |- *.
    assert (Hlen : 0 <= e - s) by (unfold within in Hseg; cbn [fst snd] in Hseg; lia).
    cbn [stitch_loop].
    set (segView := Float32Array.subarray source s e) in *. clearbody segView.
    destruct prev as [[ps pe]|].
    + destruct Hprev as [Hp Hcursor].
      unfold seg_length in Hcursor. cbn [fst snd] in Hcursor, Hfit |- *.
      assert (Hplen : 0 <= pe - ps) by (unfold within in Hp; cbn [fst snd] in Hp; lia).
      pose proof (overlap_bounds overlapSamples (pe - ps) (e - s)
                    overlap_nonneg Hplen Hlen) as (Hov0 & _ & Hovp & Hovl).
      set (ov := overlap overlapSamples (pe - ps) (e - s)) in *. clearbody ov.
      destruct (crossfade_loop_inside segView (writePos - ov) ov (Z.to_nat ov) 0 out)
        as (out1 & -> & Hlen1 & Pout1); try lia; try assumption.
      rewrite bind_Done.
      destruct (set_inside P out1 (Float32Array.subarray_from segView ov)
                  (writePos - ov + ov)) as (out2 & -> & Hlen2 & Pout2).
      * lia.
      * rewrite subarray_from_length by lia. lia.
      * rewrite bind_Done.
        destruct (IH (Some (s, e)) out2 (writePos - ov + (e - s)))
          as (out' & Hloop & Hlen' & Pout'); try assumption.
        -- split; [exact Hseg|]. unfold seg_length. cbn [fst snd]. lia.
        -- lia.
        -- lia.
        -- apply Pout2; [exact Pout1|].
           unfold Float32Array.subarray_from. now apply subarray_Forall.
        -- exists out'. rewrite Hloop. split; [f_equal; f_equal; lia|].
           split; [lia | exact Pout'].
    + destruct (set_inside P out segView writePos) as (out1 & -> & Hlen1 & Pout1);
        try lia.
      rewrite bind_Done.
      destruct (IH (Some (s, e)) out1 (writePos + (e - s)))
        as (out' & Hloop & Hlen' & Pout'); try assumption.
      * split; [exact Hseg|]. unfold seg_length. cbn [fst snd]. lia.
      * lia.
      * lia.
      * now apply Pout1.
      * exists out'. rewrite Hloop. split; [f_equal; f_equal; lia|].
        split; [lia | exact Pout'].
Qed.

(** On segments inside the source the stitcher returns an array of the
    stated length whose samples all have the property. *)
Lemma buildOutputBufferFromSegments_inside (segs : list segment) :
  Forall (within (Float32Array.len source)) segs ->
  exists out,
    buildOutputBufferFromSegments source segs overlapSamples = Done out
    /\ Float32Array.len out = stitched_length overlapSamples segs
    /\ Forall P out.
Proof.
  intros Hsegs. unfold buildOutputBufferFromSegments.
  destruct segs as [|[s e] [|next segs]].
  - exists []. repeat split. constructor.
  - inversion Hsegs as [|? ? Hseg _]; subst.
    eexists; split; [reflexivity|]. unfold Float32Array.slice. split.
    + rewrite subarray_length by exact Hseg.
      unfold stitched_length, sum_lengths, seg_length.
      cbn [fold_right sum_overlaps fst snd]. lia.
    + now apply subarray_Forall.
  - set (all := (s, e) :: next :: segs) in *. clearbody all.
    pose proof (total_loop_nonneg (Float32Array.len source) overlapSamples all None
                  overlap_nonneg Hsegs I) as Hnonneg.
    destruct (new_inside P (total_loop overlapSamples None all 0) Hnonneg)
      as (out0 & -> & Hlen0 & Pout0).
    rewrite bind_Done.
    destruct (stitch_loop_inside all None out0 0 Hsegs I) as (out & -> & Hlen & Pout);
      try lia; [now apply Pout0|].
    rewrite bind_Done. exists out. split; [reflexivity|].
    split; [|exact Pout].
    rewrite Hlen, Hlen0. apply (total_loop_spec overlapSamples all None).
Qed.

End StitchLoops.










(** ** The entry point *)

Lemma detectSpeechSegments_within {R : Rounding} (channelData : Float32Array.t)
    (sampleRate : Z) (silenceThreshold : Q) (minSilenceSamples : Z) :
  Forall (within (Float32Array.len channelData))
    (detectSpeechSegments channelData sampleRate silenceThreshold minSilenceSamples).
Proof.
  destruct channelData as [|x channelData].
  - rewrite detectSpeechSegments_empty.
    constructor; [unfold within, Float32Array.len; simpl; lia | constructor].
  - destruct (detectSpeechSegments_chain (x :: channelData) sampleRate silenceThreshold
                minSilenceSamples ltac:(discriminate)) as [Hvalid _].
    eapply Forall_impl; [|exact Hvalid].
    intros seg. unfold valid_segment, within. lia.
Qed.

Lemma msToSamples_nonneg {R : Rounding} (ms : Q) (sampleRate : Z) :
  0 <= msToSamples ms sampleRate.
Proof. unfold msToSamples. apply Z.le_max_l. Qed.

Lemma merge_segments_single (gap : Z) (seg : segment) :
  merge_segments gap [seg] = [seg].
Proof. reflexivity. Qed.

(** C4: when the segment list, before or after the merge pass, is the single
    segment [(0, N)] spanning the mono buffer, the buffer handed to the
    encoder holds exactly the downmixed samples (the stitcher is not run),
    and the result is the encoding of that buffer. *)
Theorem C4_full_segment_returns_original {R : Rounding}
    (audioBuffer : AudioBuffer.t) (opts : options) :
  let sampleRate := AudioBuffer.sampleRate audioBuffer in
  let monoData := downmixToMono audioBuffer in
  let silenceThreshold := nullish (opt_silenceThreshold opts) DEFAULTS_silenceThreshold in
  let minSilenceSamples :=
    msToSamples (nullish (opt_minSilenceMs opts) DEFAULTS_minSilenceMs) sampleRate in
  raw_segments monoData silenceThreshold minSilenceSamples
  = [(0, Float32Array.len monoData)]
  \/ detectSpeechSegments monoData sampleRate silenceThreshold minSilenceSamples
     = [(0, Float32Array.len monoData)] ->
  outputBuffer audioBuffer opts = Done (AudioBuffer.createMono monoData sampleRate)
  /\ processAudioBuffer audioBuffer opts
     = audioBufferToWavBlob (AudioBuffer.createMono monoData sampleRate).
Proof.
  intros sampleRate monoData silenceThreshold minSilenceSamples Hfull.
  assert (Hsegs : detectSpeechSegments monoData sampleRate silenceThreshold
                    minSilenceSamples = [(0, Float32Array.len monoData)]).
  { destruct Hfull as [Hraw|Hmerged]; [|exact Hmerged].
    unfold detectSpeechSegments. rewrite Hraw. apply merge_segments_single. }
  assert (Hout : outputBuffer audioBuffer opts
                 = Done (AudioBuffer.createMono monoData sampleRate)).
  { unfold outputBuffer.
    fold sampleRate monoData silenceThreshold minSilenceSamples. rewrite Hsegs.
    unfold no_significant_silence. cbn [List.length Nat.leb nth_error andb].
    now rewrite !Z.eqb_refl. }
  split; [exact Hout|].
  unfold processAudioBuffer. now rewrite Hout.
Qed.

Lemma C4_full_segment_returns_original_witness :
  outputBuffer (R := exact_arith) (AudioBuffer.mk 16000 [0.5; 0.25]%Q [[0.5; 0.75]%Q])
    (mk_options None None None)
  = Done (AudioBuffer.createMono
            (downmixToMono (R := exact_arith)
               (AudioBuffer.mk 16000 [0.5; 0.25]%Q [[0.5; 0.75]%Q])) 16000).
Proof.
  apply (C4_full_segment_returns_original (R := exact_arith)
           (AudioBuffer.mk 16000 [0.5; 0.25]%Q [[0.5; 0.75]%Q])
           (mk_options None None None)).
  left. vm_compute. reflexivity.
Defined.



(** ** Scenarios *)

(** A silent second at 16000 Hz is one segment through the fallback, and the
    buffer is handed to the encoder unchanged. *)
Example scenario_silent_second :
  let silent := repeat 0%Q (Z.to_nat 16000) in
  detectSpeechSegments (R := exact_arith) silent 16000 0.01%Q
    (msToSamples (R := exact_arith) 100 16000)
  = [(0, 16000)]
  /\ outputBuffer (R := exact_arith) (AudioBuffer.mk 16000 silent [])
       (mk_options (Some 0.01%Q) (Some 100%Q) None)
     = Done (AudioBuffer.createMono silent 16000).
Proof. split; vm_compute; reflexivity. Qed.

(** Half a second of tone, 0.3 s of silence and half a second of tone at
    16000 Hz: the first segment ends one sample before the last tone sample,
    the gap exceeds the merge gap of 480 samples, and with an overlap of 960
    samples the stitched length is 7999 + 8000 - 960. *)
Example scenario_tone_silence_tone :
  let tone := repeat 0.5%Q (Z.to_nat 8000) in
  let clip := tone ++ repeat 0%Q (Z.to_nat 4800) ++ tone in
  let segs :=
    detectSpeechSegments (R := exact_arith) clip 16000 0.01%Q
      (msToSamples (R := exact_arith) 200 16000) in
  MERGE_GAP_SAMPLES (R := exact_arith) 16000 = 480
  /\ segs = [(0, 7999); (12800, 20800)]
  /\ stitched_length (msToSamples (R := exact_arith) 60 16000) segs = 15039.
Proof. split; [|split]; vm_compute; reflexivity. Qed.

(** The same clip at a tenth of the scale, run through the stitcher. *)
Example scenario_tone_silence_tone_stitched :
  let tone := repeat 0.5%Q (Z.to_nat 800) in
  let clip := tone ++ repeat 0%Q (Z.to_nat 480) ++ tone in
  bind (buildOutputBufferFromSegments (R := exact_arith) clip [(0, 799); (1280, 2080)] 96)
    (fun out => Done (Float32Array.len out))
  = Done 1503.
Proof. vm_compute. reflexivity. Qed.

(** Two segments 200 samples apart are merged at 16000 Hz. *)
Example scenario_merge_short_gap :
  merge_segments (MERGE_GAP_SAMPLES (R := exact_arith) 16000) [(0, 1000); (1200, 2000)]
  = [(0, 2000)].
Proof. vm_compute. reflexivity. Qed.

(** Full-scale, zero and out-of-range samples. *)
Example scenario_full_scale :
  map pcm16 [1; -1; 0; 2; -2]%Q = [32767; -32768; 0; 32767; -32768].
Proof. vm_compute. reflexivity. Qed.

(* ================================================================== *)
(** * Further properties of the helpers *)

(** ** The merge pass *)

Lemma merge_after_separated (gap : Z) (segs : list segment) (accepted : segment) :
  separated gap (merge_after gap accepted segs).
Proof.
  revert accepted; induction segs as [|seg segs IH]; intros accepted.
  - simpl. exact I.
  - cbn [merge_after]. destruct (Z.leb_spec (fst seg - snd accepted) gap) as [Hle|Hgt].
    + apply IH.
    + destruct (merge_after_head gap segs seg) as (e & rest & Heq).
      specialize (IH seg). rewrite Heq in *.
      cbn [separated fst snd]. split; [lia | exact IH].
Qed.

Lemma merge_spec_separated (gap : Z) (segs : list segment) :
  separated gap (merge_spec gap segs).
Proof. destruct segs as [|seg segs]; [exact I | apply merge_after_separated]. Qed.

(** X1: whatever list is merged, segments of the result are more than [gap]
    samples apart. *)
Theorem merge_segments_separated (gap : Z) (segs : list segment) :
  separated gap (merge_segments gap segs).
Proof.
  rewrite merge_segments_spec. destruct segs as [|seg segs]; [exact I|].
  apply merge_after_separated.
Qed.

Lemma merge_after_fixpoint (gap : Z) (segs : list segment) (accepted : segment) :
  separated gap (accepted :: segs) -> merge_after gap accepted segs = accepted :: segs.
Proof.
  revert accepted; induction segs as [|seg segs IH]; intros accepted Hsep.
  - reflexivity.
  - destruct Hsep as [Hgap Hsep]. cbn [merge_after].
    destruct (Z.leb_spec (fst seg - snd accepted) gap); [lia|].
    now rewrite IH.
Qed.

(** X2: merging a second time with the same gap changes nothing. *)
Theorem merge_segments_idempotent (gap : Z) (segs : list segment) :
  merge_segments gap (merge_segments gap segs) = merge_segments gap segs.
Proof.
  pose proof (merge_spec_separated gap segs) as Hsep.
  rewrite <- merge_segments_spec in Hsep.
  rewrite (merge_segments_spec gap (merge_segments gap segs)).
  destruct (merge_segments gap segs) as [|seg rest]; [reflexivity|].
  now apply merge_after_fixpoint.
Qed.

Lemma covered_cons (m : segment) (segs : list segment) (seg : segment) :
  covered segs seg -> covered (m :: segs) seg.
Proof. apply Exists_cons_tl. Qed.

Lemma merge_after_covers (N gap : Z) (segs : list segment) (accepted : segment) :
  Forall (valid_segment N) (accepted :: segs) -> ordered (accepted :: segs) ->
  (forall x : segment, fst accepted <= fst x -> snd x <= snd accepted ->
     covered (merge_after gap accepted segs) x)
  /\ Forall (covered (merge_after gap accepted segs)) segs.
Proof.
  revert accepted; induction segs as [|seg segs IH]; intros accepted Hvalid Hord.
  - split; [|constructor]. intros x Hs He. apply Exists_cons_hd. auto.
  - cbn [merge_after].
    inversion Hvalid as [|? ? Hacc Hrest]; subst.
    inversion Hrest as [|? ? Hseg Hsegs]; subst.
    destruct Hord as [[Hsep Hasc] Hord'].
    unfold valid_segment in Hacc, Hseg.
    destruct (fst seg - snd accepted <=? gap).
    + destruct (IH (fst accepted, snd seg)) as [Hin Hall].
      * constructor; [|exact Hsegs]. unfold valid_segment. simpl. lia.
      * destruct segs as [|next segs]; [simpl; auto|].
        destruct Hord' as [[Hsep' Hasc'] Hord''].
        split; [simpl; lia | exact Hord''].
      * split.
        -- intros x Hs He. apply Hin; simpl; lia.
        -- constructor; [|exact Hall]. apply Hin; simpl; lia.
    + destruct (IH seg Hrest Hord') as [Hin Hall]. split.
      * intros x Hs He. apply Exists_cons_hd. auto.
      * constructor.
        -- apply covered_cons, Hin; lia.
        -- eapply Forall_impl; [|exact Hall]. intros x. apply covered_cons.
Qed.

(** X3: merging an ordered list of valid segments loses nothing: every
    segment of the input lies inside a segment of the result. *)
Theorem merge_segments_covers (N gap : Z) (segs : list segment) :
  Forall (valid_segment N) segs -> ordered segs ->
  Forall (covered (merge_segments gap segs)) segs.
Proof.
  intros Hvalid Hord. rewrite merge_segments_spec.
  destruct segs as [|seg segs]; [constructor|].
  destruct (merge_after_covers N gap segs seg Hvalid Hord) as [Hin Hall].
  constructor; [apply Hin; lia | exact Hall].
Qed.

Lemma merge_segments_covers_witness :
  Forall (covered (merge_segments 3 [(0, 4); (6, 9); (20, 25)])) [(0, 4); (6, 9); (20, 25)].
Proof.
  apply (merge_segments_covers 25 3 [(0, 4); (6, 9); (20, 25)]).
  - repeat (apply Forall_cons; [unfold valid_segment; simpl; lia|]). apply Forall_nil.
  - simpl. lia.
Defined.

Lemma merge_after_keeps_separated (g gap : Z) (segs : list segment) (accepted : segment) :
  separated g (accepted :: segs) -> separated g (merge_after gap accepted segs).
Proof.
  revert accepted; induction segs as [|seg segs IH]; intros accepted Hsep.
  - exact I.
  - destruct Hsep as [Hgap Hsep]. cbn [merge_after].
    destruct (fst seg - snd accepted <=? gap).
    + apply IH. destruct segs as [|next segs]; [exact I|].
      destruct Hsep as [Hgap' Hsep']. split; [simpl; lia | exact Hsep'].
    + destruct (merge_after_head gap segs seg) as (e & rest & Heq).
      specialize (IH seg Hsep). rewrite Heq in *.
      cbn [separated fst snd]. split; [lia | exact IH].
Qed.

Lemma separated_max (a b : Z) (segs : list segment) :
  separated a segs -> separated b segs -> separated (Z.max a b) segs.
Proof.
  induction segs as [|x segs IH]; [auto|].
  destruct segs as [|y segs]; [auto|].
  intros [Ha Hsa] [Hb Hsb]. split; [lia | now apply IH].
Qed.

(** ** Gaps between the segments of the scan *)

Lemma separated_snoc (g : Z) (segs : list segment) (seg : segment) :
  separated g segs ->
  Forall (fun a : segment => snd a + g + 1 <= fst seg) segs ->
  separated g (segs ++ [seg]).
Proof.
  induction segs as [|a segs IH]; intros Hsep Hend.
  - exact I.
  - inversion Hend as [|? ? Ha Hend']; subst.
    destruct segs as [|b segs].
    + cbn [app separated]. split; [lia | exact I].
    + destruct Hsep as [Hgap Hsep]. cbn [app separated]. split; [exact Hgap|].
      apply IH; assumption.
Qed.

Lemma scan_gap_inv_init (minSilenceSamples : Z) : scan_gap_inv minSilenceSamples 0 scan_init.
Proof. unfold scan_gap_inv, scan_init. simpl. split; [exact I | constructor]. Qed.

Lemma scan_step_gap_inv (silenceThreshold : Q) (minSilenceSamples i : Z) (x : Q)
    (st : scan_state) :
  0 <= i -> scan_inv i st -> scan_gap_inv minSilenceSamples i st ->
  scan_gap_inv minSilenceSamples (i + 1)
    (scan_step silenceThreshold minSilenceSamples i x st).
Proof.
  intros Hi (_ & _ & Hrun & Hstart & Hlim) (Hsep & Hgap).
  unfold scan_step, scan_gap_inv in *.
  set (M := Z.max minSilenceSamples 1) in *.
  destruct (Qltb (Qabs x) silenceThreshold).
  - revert Hlim Hgap. destruct (inSilence st); cbn [negb andb]; intros Hlim Hgap.
    + cbn [segments inSilence silenceRun currentSpeechStart].
      destruct Hgap as [HM Hends]. split; [exact Hsep|]. split; [lia|].
      eapply Forall_impl; [|exact Hends]. simpl. intros; lia.
    + destruct Hlim as (_ & Hle & _).
      destruct (Z.leb_spec minSilenceSamples (silenceRun st + 1)) as [Hm|Hm];
        cbn [segments inSilence silenceRun currentSpeechStart].
      * destruct (Z.ltb_spec (currentSpeechStart st) (Z.max 0 (i - (silenceRun st + 1))))
          as [Hlt|Hge].
        -- assert (Hmax : Z.max 0 (i - (silenceRun st + 1)) = i - (silenceRun st + 1)) by lia.
           rewrite Hmax in *.
           split; [apply separated_snoc; assumption|].
           split; [unfold M; lia|].
           apply Forall_app; split.
           ++ eapply Forall_impl; [|exact Hgap]. simpl. intros; unfold M in *; lia.
           ++ constructor; [simpl; lia | constructor].
        -- split; [exact Hsep|]. split; [unfold M; lia|].
           eapply Forall_impl; [|exact Hgap]. simpl. intros; unfold M in *; lia.
      * split; [exact Hsep | exact Hgap].
  - cbn [segments inSilence silenceRun currentSpeechStart].
    split; [exact Hsep|].
    revert Hgap. destruct (inSilence st); intros Hgap; [|exact Hgap].
    destruct Hgap as [HM Hends].
    eapply Forall_impl; [|exact Hends]. simpl. intros; lia.
Qed.

Lemma scan_from_gap_inv (silenceThreshold : Q) (minSilenceSamples : Z)
    (rest : list Q) (i : Z) (st : scan_state) :
  0 <= i -> scan_inv i st -> scan_gap_inv minSilenceSamples i st ->
  scan_gap_inv minSilenceSamples (i + Z.of_nat (List.length rest))
    (scan_from silenceThreshold minSilenceSamples i rest st).
Proof.
  revert i st; induction rest as [|x rest IH]; intros i st Hi Hinv Hgap.
  - simpl. now rewrite Z.add_0_r.
  - cbn [scan_from List.length]. rewrite Nat2Z.inj_succ.
    replace (i + Z.succ (Z.of_nat (List.length rest)))
      with (i + 1 + Z.of_nat (List.length rest)) by lia.
    apply IH; [lia | now apply scan_step_inv | now apply scan_step_gap_inv].
Qed.

Lemma raw_segments_separated (channelData : Float32Array.t) (silenceThreshold : Q)
    (minSilenceSamples : Z) :
  separated (Z.max minSilenceSamples 1)
    (raw_segments channelData silenceThreshold minSilenceSamples).
Proof.
  unfold raw_segments.
  pose proof (scan_from_gap_inv silenceThreshold minSilenceSamples channelData 0 scan_init
                ltac:(lia) scan_inv_init (scan_gap_inv_init minSilenceSamples)) as Hgap.
  fold (scan silenceThreshold minSilenceSamples channelData) in Hgap.
  set (st := scan silenceThreshold minSilenceSamples channelData) in *. clearbody st.
  destruct Hgap as [Hsep Hgap].
  assert (Htail : separated (Z.max minSilenceSamples 1)
                    (tail_rule (Float32Array.len channelData) st)).
  { unfold tail_rule. revert Hgap. destruct (inSilence st); cbn [negb andb]; intros Hgap;
      [exact Hsep|].
    destruct (currentSpeechStart st <? Float32Array.len channelData); [|exact Hsep].
    now apply separated_snoc. }
  destruct (tail_rule _ st); [exact I | exact Htail].
Qed.

(** X4: the segments that [detectSpeechSegments] returns are more than
    [minSilenceSamples] samples apart, at least two samples apart, and more
    than [MERGE_GAP_SAMPLES] samples apart. *)
Theorem detectSpeechSegments_separated {R : Rounding} (channelData : Float32Array.t)
    (sampleRate : Z) (silenceThreshold : Q) (minSilenceSamples : Z) :
  separated (Z.max (Z.max minSilenceSamples 1) (MERGE_GAP_SAMPLES sampleRate))
    (detectSpeechSegments channelData sampleRate silenceThreshold minSilenceSamples).
Proof.
  apply separated_max.
  - rewrite detectSpeechSegments_spec.
    pose proof (raw_segments_separated channelData silenceThreshold minSilenceSamples) as H.
    destruct (raw_segments _ _ _) as [|seg segs]; [exact I|].
    now apply merge_after_keeps_separated.
  - rewrite detectSpeechSegments_spec. apply merge_spec_separated.
Qed.

(** ** Clips without a cut *)

Lemma whole_clip (N : Z) (st : scan_state) :
  segments st = [] -> currentSpeechStart st = 0 ->
  fallback_rule N (tail_rule N st) = [(0, N)].
Proof.
  intros Hsegs Hstart. unfold tail_rule. rewrite Hsegs, Hstart.
  destruct (negb (inSilence st) && (0 <? N)); reflexivity.
Qed.

Lemma scan_from_loud (silenceThreshold : Q) (minSilenceSamples : Z) (rest : list Q) :
  forall (i : Z) (st : scan_state),
    Forall (loud silenceThreshold) rest -> inSilence st = false ->
    let st' := scan_from silenceThreshold minSilenceSamples i rest st in
    segments st' = segments st /\ currentSpeechStart st' = currentSpeechStart st
    /\ inSilence st' = false.
Proof.
  induction rest as [|x rest IH]; intros i st Hloud Hsil; [simpl; auto|].
  inversion Hloud as [|? ? Hx Hrest]; subst.
  cbn [scan_from]. unfold scan_step.
  replace (Qltb (Qabs x) silenceThreshold) with false
    by (symmetry; apply Qltb_false; exact Hx).
  rewrite Hsil.
  destruct (IH (i + 1) (mk_scan (segments st) false 0 (currentSpeechStart st)) Hrest eq_refl)
    as (H1 & H2 & H3).
  auto.
Qed.

Lemma raw_segments_all_loud (channelData : Float32Array.t)
    (silenceThreshold : Q) (minSilenceSamples : Z) :
  Forall (loud silenceThreshold) channelData ->
  raw_segments channelData silenceThreshold minSilenceSamples
  = [(0, Float32Array.len channelData)].
Proof.
  intros Hloud. unfold raw_segments.
  destruct (scan_from_loud silenceThreshold minSilenceSamples channelData 0 scan_init
              Hloud eq_refl) as (Hsegs & Hstart & _).
  fold (scan silenceThreshold minSilenceSamples channelData) in Hsegs, Hstart.
  now apply whole_clip.
Qed.

(** X5: a clip without a silent sample (in particular any clip when the
    threshold is not positive) is one segment, the whole clip. *)
Theorem detectSpeechSegments_all_loud {R : Rounding} (channelData : Float32Array.t)
    (sampleRate : Z) (silenceThreshold : Q) (minSilenceSamples : Z) :
  Forall (loud silenceThreshold) channelData ->
  detectSpeechSegments channelData sampleRate silenceThreshold minSilenceSamples
  = [(0, Float32Array.len channelData)].
Proof.
  intros Hloud. unfold detectSpeechSegments.
  now rewrite raw_segments_all_loud.
Qed.

Lemma detectSpeechSegments_all_loud_witness :
  detectSpeechSegments (R := exact_arith) [0.5; -0.25; 0.015]%Q 16000 0.015%Q 1 = [(0, 3)].
Proof.
  apply (detectSpeechSegments_all_loud (R := exact_arith) [0.5; -0.25; 0.015]%Q).
  repeat (apply Forall_cons; [unfold loud; simpl; apply Qle_bool_imp_le; reflexivity|]).
  apply Forall_nil.
Defined.

Lemma nonpositive_threshold_loud (silenceThreshold : Q) (channelData : Float32Array.t) :
  (silenceThreshold <= 0)%Q -> Forall (loud silenceThreshold) channelData.
Proof.
  intros Hth. apply Forall_forall. intros x _. unfold loud.
  apply Qle_trans with 0%Q; [exact Hth | apply Qabs_nonneg].
Qed.

Lemma scan_from_silent (silenceThreshold : Q) (minSilenceSamples : Z) (rest : list Q) :
  forall (i : Z) (st : scan_state),
    Forall (silent silenceThreshold) rest ->
    segments st = [] -> currentSpeechStart st = 0 ->
    (inSilence st = false -> silenceRun st = i) ->
    let st' := scan_from silenceThreshold minSilenceSamples i rest st in
    segments st' = [] /\ currentSpeechStart st' = 0.
Proof.
  induction rest as [|x rest IH]; intros i st Hsilent Hsegs Hstart Hrun; [simpl; auto|].
  inversion Hsilent as [|? ? Hx Hrest]; subst.
  cbn [scan_from]. apply IH; [exact Hrest | | |]; unfold scan_step;
    replace (Qltb (Qabs x) silenceThreshold) with true
      by (symmetry; apply Qltb_true; exact Hx).
  - destruct (negb (inSilence st) && (minSilenceSamples <=? silenceRun st + 1)) eqn:Htrig;
      cbn [segments]; [|exact Hsegs].
    apply andb_prop in Htrig. destruct Htrig as [Hns _].
    apply negb_true_iff in Hns. rewrite (Hrun Hns), Hstart.
    replace (Z.max 0 (i - (i + 1))) with 0 by lia. exact Hsegs.
  - destruct (negb (inSilence st) && (minSilenceSamples <=? silenceRun st + 1));
      cbn [currentSpeechStart]; exact Hstart.
  - destruct (negb (inSilence st) && (minSilenceSamples <=? silenceRun st + 1)) eqn:Htrig;
      cbn [inSilence silenceRun]; [discriminate|].
    intros Hns. rewrite (Hrun Hns). reflexivity.
Qed.

Lemma raw_segments_all_silent (channelData : Float32Array.t)
    (silenceThreshold : Q) (minSilenceSamples : Z) :
  Forall (silent silenceThreshold) channelData ->
  raw_segments channelData silenceThreshold minSilenceSamples
  = [(0, Float32Array.len channelData)].
Proof.
  intros Hsilent. unfold raw_segments.
  destruct (scan_from_silent silenceThreshold minSilenceSamples channelData 0 scan_init
              Hsilent eq_refl eq_refl ltac:(reflexivity)) as (Hsegs & Hstart).
  fold (scan silenceThreshold minSilenceSamples channelData) in Hsegs, Hstart.
  now apply whole_clip.
Qed.

(** X6: a clip of silent samples only is one segment, the whole clip, whatever
    the minimal silence length. *)
Theorem detectSpeechSegments_all_silent {R : Rounding} (channelData : Float32Array.t)
    (sampleRate : Z) (silenceThreshold : Q) (minSilenceSamples : Z) :
  Forall (silent silenceThreshold) channelData ->
  detectSpeechSegments channelData sampleRate silenceThreshold minSilenceSamples
  = [(0, Float32Array.len channelData)].
Proof.
  intros Hsilent. unfold detectSpeechSegments.
  now rewrite raw_segments_all_silent.
Qed.

Lemma detectSpeechSegments_all_silent_witness :
  detectSpeechSegments (R := exact_arith) [0; 0.001; -0.01; 0]%Q 16000 0.015%Q 2 = [(0, 4)].
Proof.
  apply (detectSpeechSegments_all_silent (R := exact_arith) [0; 0.001; -0.01; 0]%Q).
  repeat (apply Forall_cons; [unfold silent; reflexivity|]).
  apply Forall_nil.
Defined.

Lemma scan_from_short (silenceThreshold : Q) (minSilenceSamples : Z) (rest : list Q) :
  forall (i : Z) (st : scan_state),
    segments st = [] -> currentSpeechStart st = 0 ->
    0 <= silenceRun st <= i ->
    (inSilence st = true -> rest = []) ->
    i + Z.of_nat (List.length rest) <= minSilenceSamples ->
    let st' := scan_from silenceThreshold minSilenceSamples i rest st in
    segments st' = [] /\ currentSpeechStart st' = 0.
Proof.
  induction rest as [|x rest IH]; intros i st Hsegs Hstart Hrun Hend Hshort; [simpl; auto|].
  assert (Hns : inSilence st = false).
  { destruct (inSilence st); [|reflexivity]. specialize (Hend eq_refl). discriminate. }
  cbn [List.length] in Hshort. rewrite Nat2Z.inj_succ in Hshort.
  cbn [scan_from]. unfold scan_step. rewrite Hns. cbn [negb andb].
  destruct (Qltb (Qabs x) silenceThreshold).
  - destruct (Z.leb_spec minSilenceSamples (silenceRun st + 1)) as [Hm|Hm];
      apply IH; cbn [segments inSilence silenceRun currentSpeechStart].
    + rewrite Hstart. replace (Z.max 0 (i - (silenceRun st + 1))) with 0 by lia.
      exact Hsegs.
    + exact Hstart.
    + lia.
    + intros _. destruct rest; [reflexivity | simpl in Hshort; lia].
    + lia.
    + exact Hsegs.
    + exact Hstart.
    + lia.
    + intros H. congruence.
    + lia.
  - apply IH; cbn [segments inSilence silenceRun currentSpeechStart].
    + exact Hsegs.
    + exact Hstart.
    + lia.
    + discriminate.
    + lia.
Qed.

Lemma raw_segments_short_clip (channelData : Float32Array.t)
    (silenceThreshold : Q) (minSilenceSamples : Z) :
  Float32Array.len channelData <= minSilenceSamples ->
  raw_segments channelData silenceThreshold minSilenceSamples
  = [(0, Float32Array.len channelData)].
Proof.
  intros Hshort. unfold raw_segments.
  destruct (scan_from_short silenceThreshold minSilenceSamples channelData 0 scan_init)
    as (Hsegs & Hstart); try reflexivity.
  - simpl. lia.
  - discriminate.
  - exact Hshort.
  - fold (scan silenceThreshold minSilenceSamples channelData) in Hsegs, Hstart.
    now apply whole_clip.
Qed.

(** X7: when [minSilenceSamples] is at least the length of the clip nothing is
    cut: the clip is one segment, whatever its samples. *)
Theorem detectSpeechSegments_short_clip {R : Rounding} (channelData : Float32Array.t)
    (sampleRate : Z) (silenceThreshold : Q) (minSilenceSamples : Z) :
  Float32Array.len channelData <= minSilenceSamples ->
  detectSpeechSegments channelData sampleRate silenceThreshold minSilenceSamples
  = [(0, Float32Array.len channelData)].
Proof.
  intros Hshort. unfold detectSpeechSegments.
  now rewrite raw_segments_short_clip.
Qed.

Lemma detectSpeechSegments_short_clip_witness :
  detectSpeechSegments (R := exact_arith) [0.5; 0; 0; 0; 0.5]%Q 16000 0.015%Q 5 = [(0, 5)].
Proof.
  apply (detectSpeechSegments_short_clip (R := exact_arith) [0.5; 0; 0; 0; 0.5]%Q).
  unfold Float32Array.len. simpl. lia.
Defined.

(** ** Speech, a long silence, speech *)

Lemma scan_from_speech (silenceThreshold : Q) (minSilenceSamples : Z) (rest : list Q) :
  forall (i : Z) (segs : list segment) (start : Z),
    Forall (loud silenceThreshold) rest ->
    scan_from silenceThreshold minSilenceSamples i rest (mk_scan segs false 0 start)
    = mk_scan segs false 0 start.
Proof.
  induction rest as [|x rest IH]; intros i segs start Hloud; [reflexivity|].
  inversion Hloud as [|? ? Hx Hrest]; subst.
  cbn [scan_from]. unfold scan_step.
  replace (Qltb (Qabs x) silenceThreshold) with false
    by (symmetry; apply Qltb_false; exact Hx).
  cbn [segments inSilence silenceRun currentSpeechStart]. now apply IH.
Qed.

(** Loud samples after a long silence start a new speech region at the first
    of them. *)
Lemma scan_from_speech_after_silence (silenceThreshold : Q) (minSilenceSamples : Z)
    (x : Q) (rest : list Q) (i : Z) (segs : list segment) (run start : Z) :
  Forall (loud silenceThreshold) (x :: rest) ->
  scan_from silenceThreshold minSilenceSamples i (x :: rest) (mk_scan segs true run start)
  = mk_scan segs false 0 i.
Proof.
  intros Hloud. inversion Hloud as [|? ? Hx Hrest]; subst.
  cbn [scan_from]. unfold scan_step.
  replace (Qltb (Qabs x) silenceThreshold) with false
    by (symmetry; apply Qltb_false; exact Hx).
  cbn [segments inSilence silenceRun currentSpeechStart]. now apply scan_from_speech.
Qed.

Lemma scan_from_in_silence (silenceThreshold : Q) (minSilenceSamples : Z) (rest : list Q) :
  forall (i : Z) (segs : list segment) (run start : Z),
    Forall (silent silenceThreshold) rest ->
    scan_from silenceThreshold minSilenceSamples i rest (mk_scan segs true run start)
    = mk_scan segs true (run + Z.of_nat (List.length rest)) start.
Proof.
  induction rest as [|x rest IH]; intros i segs run start Hsilent.
  - simpl. now rewrite Z.add_0_r.
  - inversion Hsilent as [|? ? Hx Hrest]; subst.
    cbn [scan_from]. unfold scan_step.
    replace (Qltb (Qabs x) silenceThreshold) with true
      by (symmetry; apply Qltb_true; exact Hx).
    cbn [segments inSilence silenceRun currentSpeechStart negb andb].
    rewrite IH by exact Hrest. f_equal. cbn [List.length]. lia.
Qed.

(** A run of silent samples that reaches [minSilenceSamples] closes the
    speech before it one sample short of the first silent sample. *)
Lemma scan_from_long_silence (silenceThreshold : Q) (minSilenceSamples : Z)
    (rest : list Q) :
  forall (i : Z) (segs : list segment) (run start : Z),
    Forall (silent silenceThreshold) rest ->
    0 <= run < minSilenceSamples ->
    minSilenceSamples <= run + Z.of_nat (List.length rest) ->
    scan_from silenceThreshold minSilenceSamples i rest (mk_scan segs false run start)
    = mk_scan
        (if start <? Z.max 0 (i - run - 1)
         then segs ++ [(start, Z.max 0 (i - run - 1))] else segs)
        true (run + Z.of_nat (List.length rest)) start.
Proof.
  induction rest as [|x rest IH]; intros i segs run start Hsilent Hrun Hlong.
  - simpl in Hlong. lia.
  - inversion Hsilent as [|? ? Hx Hrest]; subst.
    cbn [scan_from]. unfold scan_step.
    replace (Qltb (Qabs x) silenceThreshold) with true
      by (symmetry; apply Qltb_true; exact Hx).
    cbn [segments inSilence silenceRun currentSpeechStart negb andb].
    cbn [List.length] in Hlong |- *. rewrite Nat2Z.inj_succ in Hlong |- *.
    destruct (Z.leb_spec minSilenceSamples (run + 1)) as [Hm|Hm].
    + rewrite scan_from_in_silence by exact Hrest.
      replace (i - (run + 1)) with (i - run - 1) by lia.
      f_equal. lia.
    + rewrite IH by (try exact Hrest; lia).
      replace (i + 1 - (run + 1) - 1) with (i - run - 1) by lia.
      f_equal. lia.
Qed.

Lemma raw_segments_speech_silence_speech (silenceThreshold : Q) (minSilenceSamples : Z)
    (speech1 silence speech2 : list Q) :
  let a := Float32Array.len speech1 in
  let b := Float32Array.len silence in
  let c := Float32Array.len speech2 in
  Forall (loud silenceThreshold) speech1 ->
  Forall (silent silenceThreshold) silence ->
  Forall (loud silenceThreshold) speech2 ->
  2 <= a -> 1 <= minSilenceSamples <= b -> 1 <= c ->
  raw_segments (speech1 ++ silence ++ speech2) silenceThreshold minSilenceSamples
  = [(0, a - 1); (a + b, a + b + c)].
Proof.
  intros a b c Hs1 Hsil Hs2 Ha Hm Hc.
  unfold raw_segments, scan.
  rewrite !scan_from_app.
  change scan_init with (mk_scan [] false 0 0).
  rewrite scan_from_speech by exact Hs1.
  rewrite scan_from_long_silence by (try exact Hsil; unfold b, Float32Array.len in *; lia).
  destruct speech2 as [|x speech2]; [unfold c, Float32Array.len in Hc; simpl in Hc; lia|].
  rewrite scan_from_speech_after_silence by exact Hs2.
  subst a b c. unfold Float32Array.len in *. rewrite !length_app.
  set (la := List.length speech1) in *.
  set (lb := List.length silence) in *.
  set (lc := List.length (x :: speech2)) in *.
  clearbody la lb lc.
  replace (Z.max 0 (0 + Z.of_nat la - 0 - 1)) with (Z.of_nat la - 1) by lia.
  replace (0 <? Z.of_nat la - 1) with true by (symmetry; apply Z.ltb_lt; lia).
  unfold tail_rule. cbn [segments inSilence silenceRun currentSpeechStart negb andb app].
  replace (0 + Z.of_nat la + Z.of_nat lb <? Z.of_nat (la + (lb + lc)))
    with true by (symmetry; apply Z.ltb_lt; lia).
  cbn [fallback_rule app].
  replace (0 + Z.of_nat la + Z.of_nat lb) with (Z.of_nat la + Z.of_nat lb) by lia.
  replace (Z.of_nat (la + (lb + lc))) with (Z.of_nat la + Z.of_nat lb + Z.of_nat lc) by lia.
  reflexivity.
Qed.

(** X8: speech of at least two samples, a silence of at least
    [minSilenceSamples >= 1] samples and more speech give two segments: the
    first stops one sample before the last sample of the first speech, the
    second starts at the first sample of the second speech.  They stay two
    segments when the gap of [b + 1] samples exceeds the merge gap, and become
    the whole clip otherwise. *)
Theorem detectSpeechSegments_speech_silence_speech {R : Rounding}
    (sampleRate : Z) (silenceThreshold : Q) (minSilenceSamples : Z)
    (speech1 silence speech2 : list Q) :
  let a := Float32Array.len speech1 in
  let b := Float32Array.len silence in
  let c := Float32Array.len speech2 in
  let clip := speech1 ++ silence ++ speech2 in
  Forall (loud silenceThreshold) speech1 ->
  Forall (silent silenceThreshold) silence ->
  Forall (loud silenceThreshold) speech2 ->
  2 <= a -> 1 <= minSilenceSamples <= b -> 1 <= c ->
  detectSpeechSegments clip sampleRate silenceThreshold minSilenceSamples
  = if b + 1 <=? MERGE_GAP_SAMPLES sampleRate
    then [(0, a + b + c)]
    else [(0, a - 1); (a + b, a + b + c)].
Proof.
  intros a b c clip Hs1 Hsil Hs2 Ha Hm Hc.
  unfold detectSpeechSegments, clip.
  rewrite raw_segments_speech_silence_speech by assumption.
  fold a b c. unfold merge_segments. cbn [fold_left merge_push last removelast fst snd app].
  replace (a + b - (a - 1)) with (b + 1) by lia.
  destruct (b + 1 <=? MERGE_GAP_SAMPLES sampleRate); reflexivity.
Qed.

Lemma detectSpeechSegments_speech_silence_speech_witness :
  detectSpeechSegments (R := exact_arith)
    ([0.5; 0.5; 0.5] ++ [0; 0; 0; 0] ++ [0.5; 0.5])%Q 100 0.01%Q 3
  = if 4 + 1 <=? MERGE_GAP_SAMPLES (R := exact_arith) 100
    then [(0, 3 + 4 + 2)]
    else [(0, 3 - 1); (3 + 4, 3 + 4 + 2)].
Proof.
  apply (detectSpeechSegments_speech_silence_speech (R := exact_arith) 100 0.01%Q 3
           [0.5; 0.5; 0.5]%Q [0; 0; 0; 0]%Q [0.5; 0.5]%Q).
  - repeat (apply Forall_cons; [unfold loud; apply Qle_bool_imp_le; reflexivity|]).
    apply Forall_nil.
  - repeat (apply Forall_cons; [unfold silent; reflexivity|]). apply Forall_nil.
  - repeat (apply Forall_cons; [unfold loud; apply Qle_bool_imp_le; reflexivity|]).
    apply Forall_nil.
  - unfold Float32Array.len. simpl. lia.
  - unfold Float32Array.len. simpl. lia.
  - unfold Float32Array.len. simpl. lia.
Defined.

(** ** The length of the stitched clip *)

Lemma stitched_length_cons2 (overlapSamples : Z) (a b : segment) (rest : list segment) :
  stitched_length overlapSamples (a :: b :: rest)
  = seg_length a - overlap overlapSamples (seg_length a) (seg_length b)
    + stitched_length overlapSamples (b :: rest).
Proof.
  unfold stitched_length, sum_lengths. cbn [fold_right sum_overlaps]. lia.
Qed.

Lemma stitched_length_bounds (N overlapSamples : Z) (segs : list segment) :
  0 <= overlapSamples -> Forall (within N) segs ->
  stitched_length overlapSamples segs <= sum_lengths segs
  /\ Forall (fun seg => seg_length seg <= stitched_length overlapSamples segs) segs.
Proof.
  intros Hov. induction segs as [|a segs IH]; intros Hsegs.
  - split; [reflexivity | constructor].
  - inversion Hsegs as [|? ? Ha Hrest]; subst. specialize (IH Hrest).
    destruct segs as [|b segs].
    + unfold stitched_length, sum_lengths. cbn [fold_right sum_overlaps].
      split; [lia|]. constructor; [lia | constructor].
    + inversion Hrest as [|? ? Hb _]; subst.
      rewrite stitched_length_cons2.
      destruct IH as [Hle Hall].
      assert (Hla : 0 <= seg_length a) by (unfold within, seg_length in *; lia).
      assert (Hlb : 0 <= seg_length b) by (unfold within, seg_length in *; lia).
      pose proof (overlap_bounds overlapSamples (seg_length a) (seg_length b) Hov Hla Hlb)
        as (Ho0 & _ & Hoa & Hob).
      assert (Hb_le : seg_length b <= stitched_length overlapSamples (b :: segs))
        by (inversion Hall; assumption).
      split.
      * change (sum_lengths (a :: b :: segs)) with (seg_length a + sum_lengths (b :: segs)).
        lia.
      * constructor; [lia|].
        eapply Forall_impl; [|exact Hall]. simpl. intros; lia.
Qed.

Lemma sum_lengths_ordered (N : Z) (segs : list segment) (first : segment) :
  Forall (valid_segment N) (first :: segs) -> ordered (first :: segs) ->
  sum_lengths (first :: segs) <= N - fst first.
Proof.
  revert first; induction segs as [|b segs IH]; intros first Hvalid Hord.
  - inversion Hvalid as [|? ? Hf _]; subst.
    unfold sum_lengths, seg_length, valid_segment in *. simpl. lia.
  - inversion Hvalid as [|? ? Hf Hrest]; subst.
    destruct Hord as [[Hsep Hasc] Hord'].
    specialize (IH b Hrest Hord').
    change (sum_lengths (first :: b :: segs))
      with (seg_length first + sum_lengths (b :: segs)).
    unfold seg_length, valid_segment in *. lia.
Qed.

(** X9: on segments inside the source and for [overlapSamples >= 0] the
    stitched clip is at most as long as the segments together and at least as
    long as each of them. *)
Theorem stitched_clip_length_bounds {R : Rounding} (source : Float32Array.t)
    (segs : list segment) (overlapSamples : Z) :
  0 <= overlapSamples ->
  Forall (within (Float32Array.len source)) segs ->
  exists out,
    buildOutputBufferFromSegments source segs overlapSamples = Done out
    /\ Float32Array.len out <= sum_lengths segs
    /\ Forall (fun seg => seg_length seg <= Float32Array.len out) segs.
Proof.
  intros Hov Hsegs.
  destruct (buildOutputBufferFromSegments_inside (fun _ => True) source overlapSamples
              I ltac:(apply Forall_forall; auto) ltac:(auto) Hov segs Hsegs)
    as (out & Hout & Hlen & _).
  exists out. split; [exact Hout|]. rewrite Hlen.
  now apply (stitched_length_bounds (Float32Array.len source)).
Qed.

Lemma stitched_clip_length_bounds_witness :
  exists out,
    buildOutputBufferFromSegments (R := exact_arith)
      [1; 1; 1; 1; 0; 0; 0; -1; -1; -1; -1]%Q [(0, 4); (7, 11)] 2 = Done out
    /\ Float32Array.len out <= sum_lengths [(0, 4); (7, 11)]
    /\ Forall (fun seg => seg_length seg <= Float32Array.len out) [(0, 4); (7, 11)].
Proof.
  apply (stitched_clip_length_bounds (R := exact_arith)).
  - lia.
  - repeat (apply Forall_cons; [unfold within, Float32Array.len; simpl; lia|]).
    apply Forall_nil.
Defined.

(** ** The entry point on any input *)

Lemma detectSpeechSegments_nonempty {R : Rounding} (channelData : Float32Array.t)
    (sampleRate : Z) (silenceThreshold : Q) (minSilenceSamples : Z) :
  detectSpeechSegments channelData sampleRate silenceThreshold minSilenceSamples <> [].
Proof.
  rewrite detectSpeechSegments_spec. unfold raw_segments.
  destruct (fallback_rule _ _) as [|seg rest] eqn:E.
  - exfalso. now apply fallback_nonempty in E.
  - cbn [merge_spec].
    pose proof (merge_after_length (MERGE_GAP_SAMPLES sampleRate) rest seg) as H.
    destruct (merge_after _ seg rest); [simpl in H; lia | discriminate].
Qed.

(** X10: the clip handed to the encoder is mono, keeps the sample rate, is
    never longer than the downmixed input, and is not empty unless the input
    is. *)
Theorem outputBuffer_never_longer {R : Rounding}
    (audioBuffer : AudioBuffer.t) (opts : options) :
  let monoData := downmixToMono audioBuffer in
  exists buffer,
    outputBuffer audioBuffer opts = Done buffer
    /\ AudioBuffer.sampleRate buffer = AudioBuffer.sampleRate audioBuffer
    /\ AudioBuffer.otherChannels buffer = []
    /\ Float32Array.len (AudioBuffer.getChannelData0 buffer) <= Float32Array.len monoData
    /\ (monoData <> [] -> 1 <= Float32Array.len (AudioBuffer.getChannelData0 buffer)).
Proof.
  intros monoData. unfold outputBuffer. fold monoData. clearbody monoData.
  set (sampleRate := AudioBuffer.sampleRate audioBuffer). clearbody sampleRate.
  set (silenceThreshold := nullish (opt_silenceThreshold opts) DEFAULTS_silenceThreshold).
  set (minSilenceSamples := msToSamples _ sampleRate).
  pose proof (msToSamples_nonneg (nullish (opt_overlapMs opts) DEFAULTS_overlapMs) sampleRate)
    as Hov.
  set (overlapSamples := msToSamples (nullish (opt_overlapMs opts) _) sampleRate) in *.
  clearbody silenceThreshold minSilenceSamples overlapSamples.
  destruct (no_significant_silence _ monoData) eqn:Hns.
  - eexists. repeat split; try reflexivity.
    intros Hne. unfold AudioBuffer.getChannelData0, Float32Array.len. cbn [AudioBuffer.channel0].
    destruct monoData; [congruence | simpl; lia].
  - assert (Hne : monoData <> []).
    { intros ->. rewrite detectSpeechSegments_empty in Hns. discriminate. }
    destruct (detectSpeechSegments_chain monoData sampleRate silenceThreshold
                minSilenceSamples Hne) as [Hvalid Hord].
    pose proof (detectSpeechSegments_nonempty monoData sampleRate silenceThreshold
                  minSilenceSamples) as Hsome.
    pose proof (detectSpeechSegments_within monoData sampleRate silenceThreshold
                  minSilenceSamples) as Hwithin.
    set (segs := detectSpeechSegments monoData sampleRate silenceThreshold
                   minSilenceSamples) in *.
    clearbody segs.
    destruct (buildOutputBufferFromSegments_inside (fun _ => True) monoData overlapSamples
                I ltac:(apply Forall_forall; auto) ltac:(auto) Hov segs Hwithin)
      as (out & -> & Hlen & _).
    rewrite bind_Done. eexists. split; [reflexivity|].
    unfold AudioBuffer.getChannelData0.
    cbn [AudioBuffer.sampleRate AudioBuffer.otherChannels AudioBuffer.channel0
         AudioBuffer.createMono].
    split; [reflexivity|]. split; [reflexivity|].
    rewrite Hlen.
    destruct (stitched_length_bounds _ overlapSamples segs Hov Hwithin) as [Hle Hall].
    destruct segs as [|first segs]; [congruence|].
    pose proof (sum_lengths_ordered _ segs first Hvalid Hord) as Hsum.
    inversion Hvalid as [|? ? Hfirst _]; subst.
    inversion Hall as [|? ? Hfirst_le _]; subst.
    unfold valid_segment, seg_length in *.
    split; [lia | intros _; lia].
Qed.

Lemma outputBuffer_never_longer_witness :
  exists buffer,
    outputBuffer (R := exact_arith) (AudioBuffer.mk 16000 [0.5; 0; 0.5]%Q [])
      (mk_options None None None) = Done buffer
    /\ 1 <= Float32Array.len (AudioBuffer.getChannelData0 buffer) <= 3.
Proof.
  destruct (outputBuffer_never_longer (R := exact_arith)
              (AudioBuffer.mk 16000 [0.5; 0; 0.5]%Q []) (mk_options None None None))
    as (buffer & Hout & _ & _ & Hle & Hge).
  exists buffer. split; [exact Hout|]. split.
  - apply Hge. discriminate.
  - exact Hle.
Defined.

Lemma outputBuffer_whole_clip {R : Rounding} (audioBuffer : AudioBuffer.t) (opts : options) :
  let sampleRate := AudioBuffer.sampleRate audioBuffer in
  let monoData := downmixToMono audioBuffer in
  detectSpeechSegments monoData sampleRate
    (nullish (opt_silenceThreshold opts) DEFAULTS_silenceThreshold)
    (msToSamples (nullish (opt_minSilenceMs opts) DEFAULTS_minSilenceMs) sampleRate)
  = [(0, Float32Array.len monoData)] ->
  outputBuffer audioBuffer opts = Done (AudioBuffer.createMono monoData sampleRate).
Proof.
  intros sampleRate monoData Hsegs. unfold outputBuffer.
  fold sampleRate monoData. rewrite Hsegs.
  unfold no_significant_silence. cbn [List.length Nat.leb nth_error andb].
  now rewrite !Z.eqb_refl.
Qed.

(** X11: a clip whose downmix has no silent sample, or only silent samples, or
    is no longer than the minimal silence, comes back unchanged: the result
    is the encoding of the downmixed input. *)
Theorem processAudioBuffer_unchanged {R : Rounding}
    (audioBuffer : AudioBuffer.t) (opts : options) :
  let sampleRate := AudioBuffer.sampleRate audioBuffer in
  let monoData := downmixToMono audioBuffer in
  let silenceThreshold := nullish (opt_silenceThreshold opts) DEFAULTS_silenceThreshold in
  let minSilenceSamples :=
    msToSamples (nullish (opt_minSilenceMs opts) DEFAULTS_minSilenceMs) sampleRate in
  Forall (loud silenceThreshold) monoData
  \/ Forall (silent silenceThreshold) monoData
  \/ Float32Array.len monoData <= minSilenceSamples ->
  processAudioBuffer audioBuffer opts
  = audioBufferToWavBlob (AudioBuffer.createMono monoData sampleRate).
Proof.
  intros sampleRate monoData silenceThreshold minSilenceSamples Hcase.
  unfold processAudioBuffer. rewrite outputBuffer_whole_clip; [reflexivity|].
  fold sampleRate monoData silenceThreshold minSilenceSamples.
  unfold detectSpeechSegments.
  destruct Hcase as [Hloud|[Hsilent|Hshort]].
  - now rewrite raw_segments_all_loud.
  - now rewrite raw_segments_all_silent.
  - now rewrite raw_segments_short_clip.
Qed.

Lemma processAudioBuffer_unchanged_witness :
  processAudioBuffer (R := exact_arith) (AudioBuffer.mk 16000 [0; 0.001; 0]%Q [])
    (mk_options None None None)
  = audioBufferToWavBlob
      (AudioBuffer.createMono
         (downmixToMono (R := exact_arith) (AudioBuffer.mk 16000 [0; 0.001; 0]%Q [])) 16000).
Proof.
  apply (processAudioBuffer_unchanged (R := exact_arith)
           (AudioBuffer.mk 16000 [0; 0.001; 0]%Q []) (mk_options None None None)).
  right. left.
  repeat (apply Forall_cons; [unfold silent; reflexivity|]). apply Forall_nil.
Defined.

(** ** The samples of the stitched clip *)

Lemma skipn_nth_cons {A : Type} (l : list A) (k : nat) (d : A) :
  (k < List.length l)%nat -> skipn k l = nth k l d :: skipn (S k) l.
Proof.
  revert k; induction l as [|x l IH]; intros k Hk; [simpl in Hk; lia|].
  destruct k as [|k]; [reflexivity|]. cbn [skipn nth]. apply IH. simpl in Hk. lia.
Qed.

Lemma get_middle (pre post : list Q) (a : Q) (k : Z) :
  k = Float32Array.len pre -> Float32Array.get (pre ++ a :: post) k = Done a.
Proof.
  intros ->. unfold Float32Array.get, Float32Array.len.
  rewrite length_app. cbn [List.length].
  replace (0 <=? Z.of_nat (List.length pre)) with true by (symmetry; apply Z.leb_le; lia).
  replace (Z.of_nat (List.length pre) <? Z.of_nat (List.length pre + S (List.length post)))
    with true by (symmetry; apply Z.ltb_lt; lia).
  cbn [andb]. rewrite Nat2Z.id, app_nth2, Nat.sub_diag by lia. reflexivity.
Qed.

Lemma put_middle (pre post : list Q) (a v : Q) (k : Z) :
  k = Float32Array.len pre ->
  Float32Array.put (pre ++ a :: post) k v = pre ++ v :: post.
Proof.
  intros ->. unfold Float32Array.put, Float32Array.len.
  rewrite length_app. cbn [List.length].
  replace (0 <=? Z.of_nat (List.length pre)) with true by (symmetry; apply Z.leb_le; lia).
  replace (Z.of_nat (List.length pre) <? Z.of_nat (List.length pre + S (List.length post)))
    with true by (symmetry; apply Z.ltb_lt; lia).
  cbn [andb]. rewrite Nat2Z.id.
  rewrite firstn_app, Nat.sub_diag, firstn_all, firstn_O, app_nil_r.
  rewrite skipn_app, skipn_all2 by lia.
  replace (S (List.length pre) - List.length pre)%nat with 1%nat by lia.
  reflexivity.
Qed.

Lemma set_append (written rest src : Float32Array.t) (pos : Z) :
  pos = Float32Array.len written ->
  (List.length src <= List.length rest)%nat ->
  Float32Array.set (written ++ rest) src pos
  = Done ((written ++ src) ++ skipn (List.length src) rest).
Proof.
  intros -> Hfit. unfold Float32Array.set, Float32Array.len.
  rewrite length_app.
  replace (Z.of_nat (List.length written) <? 0) with false by (symmetry; apply Z.ltb_ge; lia).
  replace (Z.of_nat (List.length written + List.length rest)
           <? Z.of_nat (List.length written) + Z.of_nat (List.length src))
    with false by (symmetry; apply Z.ltb_ge; lia).
  cbn [orb]. rewrite Nat2Z.id.
  rewrite firstn_app, Nat.sub_diag, firstn_all, firstn_O, app_nil_r.
  rewrite skipn_app, skipn_all2 by lia.
  replace (List.length written + List.length src - List.length written)%nat
    with (List.length src) by lia.
  now rewrite <- app_assoc.
Qed.

Lemma subarray_from_inside (a : Float32Array.t) (k : Z) :
  0 <= k <= Float32Array.len a ->
  Float32Array.subarray_from a k = skipn (Z.to_nat k) a.
Proof.
  intros H. unfold Float32Array.subarray_from.
  rewrite subarray_inside by (unfold within; cbn [fst snd]; lia).
  apply firstn_all2. rewrite length_skipn. unfold Float32Array.len in *. lia.
Qed.

Lemma crossfade_run_length {R : Rounding} (tail head : list Q) (i ov : Z) :
  List.length (crossfade_run tail head i ov)
  = Nat.min (List.length tail) (List.length head).
Proof.
  revert head i; induction tail as [|a tail IH]; intros head i; [reflexivity|].
  destruct head as [|b head]; [reflexivity|].
  cbn [crossfade_run List.length]. now rewrite IH.
Qed.

Lemma crossfade_loop_content {R : Rounding} (view : Float32Array.t) (writePos ov : Z)
    (n : nat) :
  forall (i : Z) (pre mid post : list Q),
    0 <= i -> writePos + i = Float32Array.len pre -> List.length mid = n ->
    i + Z.of_nat n <= Float32Array.len view ->
    crossfade_loop (pre ++ mid ++ post) view writePos ov n i
    = Done (pre ++ crossfade_run mid (skipn (Z.to_nat i) view) i ov ++ post).
Proof.
  induction n as [|n IH]; intros i pre mid post Hi Hpre Hmid Hview.
  - destruct mid; [reflexivity | discriminate].
  - destruct mid as [|a mid]; [discriminate|]. injection Hmid as Hmid.
    cbn [crossfade_loop app].
    rewrite get_middle by exact Hpre. rewrite bind_Done.
    unfold Float32Array.len in Hview.
    rewrite (skipn_nth_cons view (Z.to_nat i) 0%Q) by lia.
    assert (Hget : Float32Array.get view i = Done (nth (Z.to_nat i) view 0%Q)).
    { unfold Float32Array.get, Float32Array.len.
      replace (0 <=? i) with true by (symmetry; apply Z.leb_le; lia).
      replace (i <? Z.of_nat (List.length view)) with true by (symmetry; apply Z.ltb_lt; lia).
      reflexivity. }
    rewrite Hget, bind_Done, put_middle by exact Hpre.
    change (pre ++ ?v :: mid ++ post) with (pre ++ [v] ++ mid ++ post).
    rewrite app_assoc.
    rewrite IH; try lia.
    + cbn [crossfade_run]. rewrite <- app_assoc. cbn [app].
      replace (Z.to_nat (i + 1)) with (S (Z.to_nat i)) by lia. reflexivity.
    + unfold Float32Array.len in *. rewrite length_app. cbn [List.length]. lia.
    + unfold Float32Array.len. lia.
Qed.

Lemma join_crossfaded_length {R : Rounding} (stitched view : list Q) (ov : Z) :
  0 <= ov -> ov <= Float32Array.len stitched -> ov <= Float32Array.len view ->
  Float32Array.len (join_crossfaded stitched view ov)
  = Float32Array.len stitched - ov + Float32Array.len view.
Proof.
  unfold Float32Array.len, join_crossfaded. intros H0 Hs Hv.
  rewrite !length_app, crossfade_run_length, length_firstn, !length_skipn. lia.
Qed.

Lemma stitch_loop_content {R : Rounding} (source : Float32Array.t) (overlapSamples : Z)
    (segs : list segment) :
  0 <= overlapSamples ->
  forall (prev : option segment) (stitched zeros : list Q),
    Forall (within (Float32Array.len source)) segs ->
    match prev with
    | None => True
    | Some p => within (Float32Array.len source) p
                /\ seg_length p <= Float32Array.len stitched
    end ->
    total_loop overlapSamples prev segs 0 <= Float32Array.len zeros ->
    stitch_loop source overlapSamples prev segs (stitched ++ zeros)
      (Float32Array.len stitched)
    = Done (stitch_list source overlapSamples prev segs stitched
            ++ skipn (Z.to_nat (total_loop overlapSamples prev segs 0)) zeros,
            Float32Array.len stitched + total_loop overlapSamples prev segs 0).
Proof.
  intros Hov. induction segs as [|[s e] segs IH]; intros prev stitched zeros Hsegs Hprev Hfit.
  - simpl. now rewrite Z.add_0_r.
  - inversion Hsegs as [|? ? Hseg Hrest]; subst.
    pose proof (subarray_length source s e Hseg) as Hview.
    pose proof (total_loop_nonneg (Float32Array.len source) overlapSamples segs
                  (Some (s, e)) Hov Hrest Hseg) as Hnonneg.
    rewrite total_loop_cons in Hfit |- *.
    unfold seg_length in Hfit |- *. cbn [fst snd] in Hfit |- *.
    assert (Hlen : 0 <= e - s) by (unfold within in Hseg; cbn [fst snd] in Hseg; lia).
    cbn [stitch_loop stitch_list].
    set (view := Float32Array.subarray source s e) in *. clearbody view.
    set (remaining := total_loop overlapSamples (Some (s, e)) segs 0) in *.
    unfold Float32Array.len in Hview, Hfit.
    destruct prev as [[ps pe]|].
    + destruct Hprev as [Hp Hcursor].
      unfold seg_length in Hcursor. cbn [fst snd] in Hcursor, Hfit |- *.
      assert (Hplen : 0 <= pe - ps) by (unfold within in Hp; cbn [fst snd] in Hp; lia).
      pose proof (overlap_bounds overlapSamples (pe - ps) (e - s) Hov Hplen Hlen)
        as (Hov0 & _ & Hovp & Hovl).
      set (ov := overlap overlapSamples (pe - ps) (e - s)) in *. clearbody ov.
      unfold Float32Array.len in Hcursor.
      set (keep := (List.length stitched - Z.to_nat ov)%nat).
      assert (Hsplit : stitched = firstn keep stitched ++ skipn keep stitched)
        by (symmetry; apply firstn_skipn).
      rewrite Hsplit at 1. rewrite <- app_assoc.
      rewrite crossfade_loop_content.
      * cbn [Z.to_nat skipn]. rewrite bind_Done.
        rewrite app_assoc.
        rewrite set_append.
        -- rewrite bind_Done.
           rewrite subarray_from_inside by (unfold Float32Array.len; lia).
           assert (Hjoin : (firstn keep stitched ++ crossfade_run (skipn keep stitched) view 0 ov)
                           ++ skipn (Z.to_nat ov) view
                           = join_crossfaded stitched view ov).
           { unfold join_crossfaded. fold keep. now rewrite <- app_assoc. }
           rewrite Hjoin.
           replace (Float32Array.len stitched - ov + (e - s))
             with (Float32Array.len (join_crossfaded stitched view ov))
             by (rewrite join_crossfaded_length; unfold Float32Array.len; lia).
           rewrite IH.
           ++ rewrite join_crossfaded_length by (unfold Float32Array.len; lia).
              fold remaining. rewrite skipn_skipn, length_skipn.
              f_equal. f_equal; [|unfold Float32Array.len; lia].
              f_equal. f_equal. lia.
           ++ exact Hrest.
           ++ split; [exact Hseg|]. unfold seg_length. cbn [fst snd].
              rewrite join_crossfaded_length; unfold Float32Array.len; lia.
           ++ fold remaining. unfold Float32Array.len.
              rewrite !length_skipn. lia.
        -- unfold Float32Array.len.
           rewrite length_app, crossfade_run_length, length_firstn, length_skipn.
           unfold keep. lia.
        -- rewrite subarray_from_inside by (unfold Float32Array.len; lia).
           rewrite length_skipn. lia.
      * lia.
      * unfold Float32Array.len. rewrite length_firstn. unfold keep. lia.
      * rewrite length_skipn. unfold keep. lia.
      * unfold Float32Array.len. lia.
    + rewrite set_append by (reflexivity || lia).
      rewrite bind_Done.
      replace (Float32Array.len stitched + (e - s))
        with (Float32Array.len (stitched ++ view))
        by (unfold Float32Array.len; rewrite length_app; lia).
      rewrite IH.
      * fold remaining. rewrite skipn_skipn.
        f_equal. f_equal; [|unfold Float32Array.len; rewrite length_app; lia].
        f_equal. f_equal. lia.
      * exact Hrest.
      * split; [exact Hseg|]. unfold seg_length, Float32Array.len. cbn [fst snd].
        rewrite length_app. lia.
      * fold remaining. unfold Float32Array.len. rewrite length_skipn. lia.
Qed.

Ltac stitch_from_empty source overlapSamples segs Hov Hsegs :=
  unfold buildOutputBufferFromSegments;
  destruct segs as [|[? ?] [|? ?]]; [reflexivity | reflexivity |];
  match goal with
  | |- context [total_loop overlapSamples None ?all 0] =>
      let Hnonneg := fresh "Hnonneg" in
      let Hloop := fresh "Hloop" in
      pose proof (total_loop_nonneg (Float32Array.len source) overlapSamples all None
                    Hov Hsegs I) as Hnonneg;
      unfold Float32Array.new;
      replace (total_loop overlapSamples None all 0 <? 0) with false
        by (symmetry; apply Z.ltb_ge; lia);
      rewrite bind_Done;
      pose proof (stitch_loop_content source overlapSamples all Hov None []
                    (repeat 0%Q (Z.to_nat (total_loop overlapSamples None all 0))) Hsegs I)
        as Hloop;
      cbn [app] in Hloop; change (Float32Array.len []) with 0 in Hloop;
      rewrite Hloop by (unfold Float32Array.len; rewrite repeat_length; lia);
      rewrite bind_Done; f_equal;
      rewrite skipn_all2 by (rewrite repeat_length; lia);
      apply app_nil_r
  end.



Lemma join_crossfaded_no_overlap {R : Rounding} (stitched view : list Q) :
  join_crossfaded stitched view 0 = stitched ++ view.
Proof.
  unfold join_crossfaded. cbn [Z.to_nat skipn]. rewrite Nat.sub_0_r.
  rewrite firstn_all, skipn_all. reflexivity.
Qed.

Lemma stitch_list_no_overlap {R : Rounding} (source : Float32Array.t)
    (segs : list segment) :
  forall (prev : option segment) (stitched : list Q),
    Forall (within (Float32Array.len source)) segs ->
    match prev with None => True | Some p => within (Float32Array.len source) p end ->
    stitch_list source 0 prev segs stitched
    = stitched
      ++ List.concat (map (fun seg => Float32Array.subarray source (fst seg) (snd seg)) segs).
Proof.
  induction segs as [|[s e] segs IH]; intros prev stitched Hsegs Hprev.
  - simpl. now rewrite app_nil_r.
  - inversion Hsegs as [|? ? Hseg Hrest]; subst.
    cbn [stitch_list map List.concat fst snd].
    rewrite IH by assumption. rewrite app_assoc. f_equal.
    destruct prev as [[ps pe]|]; [|reflexivity].
    unfold within in Hprev, Hseg. cbn [fst snd] in Hprev, Hseg.
    replace (overlap 0 (pe - ps) (e - s)) with 0 by (unfold overlap; lia).
    apply join_crossfaded_no_overlap.
Qed.

(** X13: without overlap the stitcher concatenates the samples of the
    segments, in order and unchanged. *)
Theorem buildOutputBufferFromSegments_no_overlap {R : Rounding}
    (source : Float32Array.t) (segs : list segment) :
  Forall (within (Float32Array.len source)) segs ->
  buildOutputBufferFromSegments source segs 0
  = Done (List.concat (map (fun seg => Float32Array.subarray source (fst seg) (snd seg)) segs)).
Proof.
  intros Hsegs.
  assert (Hov : 0 <= 0) by lia.
  transitivity (Done (stitch_list source 0 None segs [])).
  - stitch_from_empty source 0 segs Hov Hsegs.
  - f_equal. exact (stitch_list_no_overlap source segs None [] Hsegs I).
Qed.

Lemma buildOutputBufferFromSegments_no_overlap_witness :
  buildOutputBufferFromSegments (R := exact_arith)
    [1; 2; 3; 4; 5; 6; 7]%Q [(0, 2); (3, 4); (5, 7)] 0
  = Done (List.concat (map (fun seg => Float32Array.subarray [1; 2; 3; 4; 5; 6; 7]%Q
                                    (fst seg) (snd seg))
                    [(0, 2); (3, 4); (5, 7)])).
Proof.
  apply (buildOutputBufferFromSegments_no_overlap (R := exact_arith)).
  repeat (apply Forall_cons; [unfold within, Float32Array.len; simpl; lia|]).
  apply Forall_nil.
Defined.

Lemma fl_proper {R : Rounding} {L : RoundingLaws R} (x y : Q) :
  (x == y)%Q -> (fl x == fl y)%Q.
Proof.
  intros H. apply Qle_antisym; apply fl_mono; rewrite H; apply Qle_refl.
Qed.

Lemma fround_proper {R : Rounding} {L : RoundingLaws R} (x y : Q) :
  (x == y)%Q -> (fround x == fround y)%Q.
Proof.
  intros H. apply Qle_antisym; apply fround_mono; rewrite H; apply Qle_refl.
Qed.

(** X14: the first sample of a crossfade is the sample already in the output:
    at [i = 0] the new segment has weight 0.  ([a] is a value a Float32Array
    holds, so rounding leaves it alone.) *)
Theorem crossfade_starts_at_previous {R : Rounding} {L : RoundingLaws R}
    (a b : Q) (ov : Z) :
  0 < ov -> (fl a == a)%Q -> (fround a == a)%Q ->
  (crossfade_sample a b 0 ov == a)%Q.
Proof.
  intros Hov Hfl Hfround. unfold crossfade_sample.
  replace (ov =? 0) with false by (symmetry; apply Z.eqb_neq; lia).
  assert (Hfi : (fl (inject_Z 0 / inject_Z ov) == 0)%Q).
  { transitivity (fl 0); [|apply fl_0]. apply fl_proper.
    unfold Qdiv. change (inject_Z 0) with 0%Q. apply Qmult_0_l. }
  assert (Hfo : (fl (1 - fl (inject_Z 0 / inject_Z ov)) == 1)%Q).
  { transitivity (fl 1); [|apply fl_1]. apply fl_proper. rewrite Hfi. reflexivity. }
  assert (Ha : (fl (a * fl (1 - fl (inject_Z 0 / inject_Z ov))) == a)%Q).
  { transitivity (fl a); [|exact Hfl]. apply fl_proper. rewrite Hfo. apply Qmult_1_r. }
  assert (Hb : (fl (b * fl (inject_Z 0 / inject_Z ov)) == 0)%Q).
  { transitivity (fl 0); [|apply fl_0]. apply fl_proper. rewrite Hfi. apply Qmult_0_r. }
  transitivity (fround a); [|exact Hfround]. apply fround_proper.
  transitivity (fl a); [|exact Hfl]. apply fl_proper. rewrite Ha, Hb. apply Qplus_0_r.
Qed.

Lemma crossfade_starts_at_previous_witness :
  (crossfade_sample (R := exact_arith) 0.5 (-1) 0 960 == 0.5)%Q.
Proof.
  apply (crossfade_starts_at_previous (R := exact_arith) (L := exact_arith_laws)).
  - lia.
  - reflexivity.
  - reflexivity.
Defined.

(** ** The quantiser *)

Lemma truncate_nonneg (q : Q) : (0 <= q)%Q -> truncate q = Qfloor q.
Proof.
  destruct q as [n d]. unfold Qle, truncate, Qfloor. cbn [Qnum Qden].
  intros H. apply Z.quot_div_nonneg; lia.
Qed.

Lemma truncate_nonpos (q : Q) : (q <= 0)%Q -> truncate q = Qceiling q.
Proof.
  destruct q as [n d]. unfold Qle, truncate, Qceiling, Qfloor, Qopp. cbn [Qnum Qden].
  intros H.
  replace n with (- - n) at 1 by lia.
  rewrite Z.quot_opp_l by lia. rewrite Z.quot_div_nonneg by lia. reflexivity.
Qed.

Lemma truncate_mono (p q : Q) : (p <= q)%Q -> truncate p <= truncate q.
Proof.
  intros Hpq.
  destruct (Qlt_le_dec p 0) as [Hp|Hp]; destruct (Qlt_le_dec q 0) as [Hq|Hq].
  - rewrite !truncate_nonpos by (apply Qlt_le_weak; assumption).
    now apply Qceiling_resp_le.
  - rewrite (truncate_nonpos p) by (apply Qlt_le_weak; assumption).
    rewrite (truncate_nonneg q) by assumption.
    apply Z.le_trans with 0.
    + change 0 with (Qceiling 0). apply Qceiling_resp_le. now apply Qlt_le_weak.
    + change 0 with (Qfloor 0). now apply Qfloor_resp_le.
  - exfalso. apply (Qlt_not_le q 0 Hq). now apply Qle_trans with p.
  - rewrite !truncate_nonneg by assumption. now apply Qfloor_resp_le.
Qed.

Lemma truncate_proper (p q : Q) : (p == q)%Q -> truncate p = truncate q.
Proof.
  intros H. apply Z.le_antisymm; apply truncate_mono; rewrite H; apply Qle_refl.
Qed.

Lemma clamp_mono (x y : Q) :
  (x <= y)%Q -> (Qmax (-1) (Qmin 1 x) <= Qmax (-1) (Qmin 1 y))%Q.
Proof. intros H. now apply Q.max_le_compat_l, Q.min_le_compat_l. Qed.

(** X15: the quantiser is monotone: a larger sample never gets a smaller
    16-bit value. *)
Theorem pcm16_monotone (x y : Q) : (x <= y)%Q -> pcm16 x <= pcm16 y.
Proof.
  intros Hxy.
  destruct (pcm16_truncates x) as [-> _]. destruct (pcm16_truncates y) as [-> _].
  unfold trunc_pcm16.
  pose proof (clamp_mono x y Hxy) as Hs.
  set (s := Qmax (-1) (Qmin 1 x)) in *. set (t := Qmax (-1) (Qmin 1 y)) in *.
  clearbody s t.
  destruct (Qle_bool 0 s) eqn:Es; destruct (Qle_bool 0 t) eqn:Et.
  - apply truncate_mono. nra.
  - apply Qle_bool_iff in Es. apply not_true_iff_false in Et.
    exfalso. apply Et, Qle_bool_iff. now apply Qle_trans with s.
  - apply Qle_bool_iff in Et.
    assert (Hneg : (s < 0)%Q).
    { apply Qnot_le_lt. intros H. apply Qle_bool_iff in H. congruence. }
    apply Z.le_trans with (truncate 0).
    + apply truncate_mono. nra.
    + apply truncate_mono. nra.
  - apply truncate_mono. nra.
Qed.

Lemma pcm16_monotone_witness : pcm16 (-0.5) <= pcm16 0.25.
Proof. apply (pcm16_monotone (-0.5) 0.25). unfold Qle. simpl. lia. Defined.

(** X16: samples at or beyond full scale saturate: [x >= 1] is stored as 32767
    and [x <= -1] as -32768. *)
Theorem pcm16_saturates (x : Q) :
  ((1 <= x)%Q -> pcm16 x = 32767) /\ ((x <= -1)%Q -> pcm16 x = -32768).
Proof.
  destruct (pcm16_truncates x) as [-> _]. unfold trunc_pcm16. split; intros H.
  - assert (Hs : (Qmax (-1) (Qmin 1 x) == 1)%Q).
    { rewrite (Q.min_l 1 x H). apply Q.max_r. discriminate. }
    replace (Qle_bool 0 (Qmax (-1) (Qmin 1 x))) with true
      by (symmetry; apply Qle_bool_iff; rewrite Hs; discriminate).
    rewrite (truncate_proper _ 32767); [reflexivity|]. rewrite Hs. reflexivity.
  - assert (Hs : (Qmax (-1) (Qmin 1 x) == -1)%Q).
    { assert (Hmin : (Qmin 1 x == x)%Q).
      { apply Q.min_r. apply Qle_trans with (-1)%Q; [exact H | discriminate]. }
      rewrite Hmin. apply Q.max_l. exact H. }
    replace (Qle_bool 0 (Qmax (-1) (Qmin 1 x))) with false.
    + rewrite (truncate_proper _ (-32768)); [reflexivity|]. rewrite Hs. reflexivity.
    + symmetry. apply not_true_iff_false. intros Hle. apply Qle_bool_iff in Hle.
      rewrite Hs in Hle. revert Hle. unfold Qle. simpl. lia.
Qed.

Lemma pcm16_saturates_witness : pcm16 1.5 = 32767 /\ pcm16 (-3) = -32768.
Proof.
  split.
  - apply (proj1 (pcm16_saturates 1.5)). unfold Qle. simpl. lia.
  - apply (proj2 (pcm16_saturates (-3))). unfold Qle. simpl. lia.
Defined.

(** X17: inside full scale the stored value is the scaled sample cut towards
    zero: it is off by less than one step and never larger in magnitude. *)
Theorem pcm16_accuracy (x : Q) :
  ((0 <= x <= 1)%Q ->
   (inject_Z (pcm16 x) <= x * 32767)%Q /\ (x * 32767 < inject_Z (pcm16 x + 1))%Q)
  /\ ((-1 <= x < 0)%Q ->
      (inject_Z (pcm16 x - 1) < x * 32768)%Q /\ (x * 32768 <= inject_Z (pcm16 x))%Q).
Proof.
  destruct (pcm16_truncates x) as [-> _]. unfold trunc_pcm16. split; intros [Hlo Hhi].
  - assert (Hs : (Qmax (-1) (Qmin 1 x) == x)%Q).
    { rewrite (Q.min_r 1 x Hhi). apply Q.max_r.
      apply Qle_trans with 0%Q; [discriminate | exact Hlo]. }
    replace (Qle_bool 0 (Qmax (-1) (Qmin 1 x))) with true
      by (symmetry; apply Qle_bool_iff; rewrite Hs; exact Hlo).
    rewrite (truncate_proper _ (x * 32767)) by (rewrite Hs; reflexivity).
    rewrite truncate_nonneg by nra.
    split; [apply Qfloor_le | apply Qlt_floor].
  - assert (Hs : (Qmax (-1) (Qmin 1 x) == x)%Q).
    { assert (Hmin : (Qmin 1 x == x)%Q).
      { apply Q.min_r. apply Qlt_le_weak. apply Qlt_trans with 0%Q; [exact Hhi | reflexivity]. }
      rewrite Hmin. apply Q.max_r. exact Hlo. }
    replace (Qle_bool 0 (Qmax (-1) (Qmin 1 x))) with false.
    + rewrite (truncate_proper _ (x * 32768)) by (rewrite Hs; reflexivity).
      rewrite truncate_nonpos by nra.
      split; [apply Qceiling_lt | apply Qle_ceiling].
    + symmetry. apply not_true_iff_false. intros Hle. apply Qle_bool_iff in Hle.
      rewrite Hs in Hle. exact (Qlt_not_le _ _ Hhi Hle).
Qed.

Lemma pcm16_accuracy_witness :
  (inject_Z (pcm16 0.3) <= 0.3 * 32767)%Q /\ (0.3 * 32767 < inject_Z (pcm16 0.3 + 1))%Q.
Proof.
  apply (proj1 (pcm16_accuracy 0.3)). split; unfold Qle; simpl; lia.
Defined.

(** ** Writing into the view *)

Lemma store_length (view bytes view' : list Z) (byteOffset : Z) :
  DataView.store view byteOffset bytes = Done view' ->
  List.length view' = List.length view.
Proof.
  unfold DataView.store, DataView.byteLength.
  destruct (Z.ltb_spec byteOffset 0); [discriminate|].
  destruct (Z.ltb_spec (Z.of_nat (List.length view))
              (byteOffset + Z.of_nat (List.length bytes))); [discriminate|].
  cbn [orb]. intros Heq.
  assert (Hview : view' = firstn (Z.to_nat byteOffset) view ++ bytes
                          ++ skipn (Z.to_nat byteOffset + List.length bytes) view)
    by congruence.
  rewrite Hview, !length_app, length_firstn, length_skipn. lia.
Qed.

Lemma store_outside (view bytes : list Z) (byteOffset : Z) :
  byteOffset < 0 \/ DataView.byteLength view < byteOffset + Z.of_nat (List.length bytes) ->
  DataView.store view byteOffset bytes = Fault RangeError.
Proof.
  intros H. unfold DataView.store.
  destruct (Z.ltb_spec byteOffset 0); [reflexivity|].
  destruct (Z.ltb_spec (DataView.byteLength view)
              (byteOffset + Z.of_nat (List.length bytes))); [reflexivity | lia].
Qed.

Lemma store_inside (view bytes : list Z) (byteOffset : Z) :
  0 <= byteOffset ->
  byteOffset + Z.of_nat (List.length bytes) <= DataView.byteLength view ->
  exists view', DataView.store view byteOffset bytes = Done view'.
Proof.
  intros H0 H1. unfold DataView.store.
  destruct (Z.ltb_spec byteOffset 0); [lia|].
  destruct (Z.ltb_spec (DataView.byteLength view)
              (byteOffset + Z.of_nat (List.length bytes))); [lia|].
  cbn [orb]. eauto.
Qed.

(** X18: when the samples fit, [floatTo16BitPCM] replaces exactly the bytes
    from [offset] to [offset + 2 * input.length] by the samples' bytes and
    leaves every other byte of the view as it was. *)
Theorem floatTo16BitPCM_frame (view : DataView.t) (offset : Z) (input : Float32Array.t) :
  0 <= offset ->
  offset + 2 * Float32Array.len input <= DataView.byteLength view ->
  floatTo16BitPCM view offset input
  = Done (firstn (Z.to_nat offset) view
          ++ pcm_bytes input
          ++ skipn (Z.to_nat offset + 2 * List.length input) view).
Proof.
  unfold Float32Array.len, DataView.byteLength. intros Hoff Hfit.
  rewrite <- (firstn_skipn (Z.to_nat offset) view) at 1.
  rewrite floatTo16BitPCM_append.
  - rewrite skipn_skipn, <- app_assoc.
    replace (2 * List.length input + Z.to_nat offset)%nat
      with (Z.to_nat offset + 2 * List.length input)%nat by lia.
    reflexivity.
  - rewrite length_firstn. lia.
  - rewrite length_skipn. lia.
Qed.

Lemma floatTo16BitPCM_frame_witness :
  floatTo16BitPCM [9; 8; 7; 6; 5] 1 [1; -1]%Q
  = Done (firstn (Z.to_nat 1) [9; 8; 7; 6; 5]
          ++ pcm_bytes [1; -1]%Q
          ++ skipn (Z.to_nat 1 + 2 * List.length [1; -1]%Q) [9; 8; 7; 6; 5]).
Proof.
  apply (floatTo16BitPCM_frame [9; 8; 7; 6; 5] 1 [1; -1]%Q).
  - lia.
  - vm_compute. discriminate.
Defined.

(** X19: when some sample does not fit into the view, [floatTo16BitPCM] throws
    a RangeError. *)
Theorem floatTo16BitPCM_range_error (input : Float32Array.t) :
  forall (view : DataView.t) (offset : Z),
    input <> [] ->
    offset < 0 \/ DataView.byteLength view < offset + 2 * Float32Array.len input ->
    floatTo16BitPCM view offset input = Fault RangeError.
Proof.
  unfold Float32Array.len.
  induction input as [|x input IH]; intros view offset Hne Hout; [congruence|].
  cbn [floatTo16BitPCM]. unfold DataView.setInt16.
  cbn [List.length] in Hout. rewrite Nat2Z.inj_succ in Hout.
  destruct (Z.lt_ge_cases offset 0) as [Hneg|Hpos].
  - rewrite store_outside by (left; exact Hneg). reflexivity.
  - destruct (Z.lt_ge_cases (DataView.byteLength view) (offset + 2)) as [Hshort|Hroom].
    + rewrite store_outside by (right; rewrite le_bytes_length; lia). reflexivity.
    + destruct (store_inside view (DataView.le_bytes 2 (ToUint16 (ToInt16 (truncate (scale_sample x)))))
                  offset Hpos) as (view' & Hstore).
      { rewrite le_bytes_length. lia. }
      rewrite Hstore, bind_Done.
      apply store_length in Hstore.
      apply IH.
      * destruct input; [simpl in Hout; lia | discriminate].
      * right. unfold DataView.byteLength in *. lia.
Qed.

Lemma floatTo16BitPCM_range_error_witness :
  floatTo16BitPCM [0; 0; 0] 0 [1; -1]%Q = Fault RangeError.
Proof.
  apply (floatTo16BitPCM_range_error [1; -1]%Q [0; 0; 0] 0).
  - discriminate.
  - right. vm_compute. reflexivity.
Defined.

(** X20: [writeString] stores the character codes of the string from [offset]
    on and leaves every other byte as it was when the string fits; when a
    character does not fit it throws a RangeError. *)
Theorem writeString_frame (view : DataView.t) (offset : Z) (str : string) :
  (0 <= offset ->
   offset + Z.of_nat (String.length str) <= DataView.byteLength view ->
   writeString view offset str
   = Done (firstn (Z.to_nat offset) view
           ++ charCodes str
           ++ skipn (Z.to_nat offset + String.length str) view))
  /\ (str <> EmptyString ->
      offset < 0 \/ DataView.byteLength view < offset + Z.of_nat (String.length str) ->
      writeString view offset str = Fault RangeError).
Proof.
  split.
  - unfold DataView.byteLength. intros Hoff Hfit.
    rewrite <- (firstn_skipn (Z.to_nat offset) view) at 1.
    rewrite writeString_append.
    + rewrite skipn_skipn, <- app_assoc.
      replace (String.length str + Z.to_nat offset)%nat
        with (Z.to_nat offset + String.length str)%nat by lia.
      reflexivity.
    + rewrite length_firstn. lia.
    + rewrite length_skipn. lia.
  - unfold writeString.
    assert (Hgen : forall (s : string) (v : DataView.t) (i : Z),
               s <> EmptyString ->
               offset + i < 0
               \/ DataView.byteLength v < offset + i + Z.of_nat (String.length s) ->
               writeString_from v offset i s = Fault RangeError).
    { induction s as [|c s IH]; intros v i Hne Hout; [congruence|].
      cbn [writeString_from]. unfold DataView.setUint8.
      cbn [String.length] in Hout. rewrite Nat2Z.inj_succ in Hout.
      destruct (Z.lt_ge_cases (offset + i) 0) as [Hneg|Hpos].
      - rewrite store_outside by (left; exact Hneg). reflexivity.
      - destruct (Z.lt_ge_cases (DataView.byteLength v) (offset + i + 1)) as [Hshort|Hroom].
        + rewrite store_outside by (right; cbn [List.length]; lia). reflexivity.
        + destruct (store_inside v [ToUint8 (Z.of_N (N_of_ascii c))] (offset + i) Hpos)
            as (v' & Hstore).
          { cbn [List.length]. lia. }
          rewrite Hstore, bind_Done. apply store_length in Hstore.
          apply IH.
          * destruct s; [simpl in Hout; lia | discriminate].
          * right. unfold DataView.byteLength in *. lia. }
    intros Hne Hout. apply Hgen; [exact Hne|]. rewrite Z.add_0_r. exact Hout.
Qed.

Lemma writeString_frame_witness :
  writeString [1; 2; 3; 4; 5; 6] 1 "RIFF"
  = Done (firstn (Z.to_nat 1) [1; 2; 3; 4; 5; 6]
          ++ charCodes "RIFF"
          ++ skipn (Z.to_nat 1 + String.length "RIFF") [1; 2; 3; 4; 5; 6])
  /\ writeString [1; 2; 3] 1 "RIFF" = Fault RangeError.
Proof.
  split.
  - apply (proj1 (writeString_frame [1; 2; 3; 4; 5; 6] 1 "RIFF")).
    + lia.
    + vm_compute. discriminate.
  - apply (proj2 (writeString_frame [1; 2; 3] 1 "RIFF")).
    + discriminate.
    + right. vm_compute. reflexivity.
Defined.

(** ** Milliseconds to samples *)

(** X21: [msToSamples] is monotone in the duration at a non-negative sample
    rate, whatever the rounding of the two floating-point operations. *)
Theorem msToSamples_monotone {R : Rounding} {L : RoundingLaws R}
    (ms1 ms2 : Q) (sampleRate : Z) :
  0 <= sampleRate -> (ms1 <= ms2)%Q ->
  msToSamples ms1 sampleRate <= msToSamples ms2 sampleRate.
Proof.
  intros Hrate Hms. unfold msToSamples, Math_round.
  apply Z.max_le_compat_l, Qfloor_resp_le.
  apply Qplus_le_compat; [|apply Qle_refl].
  apply fl_mono, Qmult_le_compat_r.
  - apply fl_mono. unfold Qdiv. apply Qmult_le_compat_r; [exact Hms | discriminate].
  - unfold inject_Z, Qle. simpl. lia.
Qed.

Lemma msToSamples_monotone_witness :
  @msToSamples exact_arith 60 16000 <= @msToSamples exact_arith 200 16000.
Proof.
  apply (@msToSamples_monotone exact_arith exact_arith_laws 60 200 16000).
  - lia.
  - discriminate.
Defined.

(** X22: a duration of zero or less gives zero samples at a non-negative
    sample rate. *)
Theorem msToSamples_nonpositive {R : Rounding} {L : RoundingLaws R}
    (ms : Q) (sampleRate : Z) :
  0 <= sampleRate -> (ms <= 0)%Q -> msToSamples ms sampleRate = 0.
Proof.
  intros Hrate Hms. unfold msToSamples, Math_round.
  apply Z.max_l.
  assert (Hq : (fl (ms / 1000) <= 0)%Q).
  { rewrite <- fl_0. apply fl_mono. unfold Qdiv.
    setoid_replace 0%Q with (0 * / 1000)%Q by reflexivity.
    apply Qmult_le_compat_r; [exact Hms | discriminate]. }
  assert (Hp : (fl (fl (ms / 1000) * inject_Z sampleRate) <= 0)%Q).
  { rewrite <- fl_0. apply fl_mono.
    setoid_replace 0%Q with (0 * inject_Z sampleRate)%Q by (symmetry; apply Qmult_0_l).
    apply Qmult_le_compat_r; [exact Hq|]. unfold inject_Z, Qle. simpl. lia. }
  change 0 with (Qfloor (0 + (1 # 2))).
  apply Qfloor_resp_le, Qplus_le_compat; [exact Hp | apply Qle_refl].
Qed.

Lemma msToSamples_nonpositive_witness : @msToSamples exact_arith (-5) 16000 = 0.
Proof.
  apply (@msToSamples_nonpositive exact_arith exact_arith_laws (-5) 16000).
  - lia.
  - discriminate.
Defined.



(** ** The downmix *)

Lemma copyFromChannel_length (n : nat) (channel : list Q) :
  List.length (AudioBuffer.copyFromChannel n channel) = n.
Proof.
  unfold AudioBuffer.copyFromChannel.
  rewrite length_app, length_firstn, repeat_length. lia.
Qed.


Lemma copyFromChannel_whole (channel : list Q) :
  AudioBuffer.copyFromChannel (List.length channel) channel = channel.
Proof.
  unfold AudioBuffer.copyFromChannel.
  rewrite firstn_all, Nat.sub_diag. apply app_nil_r.
Qed.

Lemma copyFromChannel_Forall (P : Q -> Prop) (n : nat) (channel : list Q) :
  P 0%Q -> Forall P channel -> Forall P (AudioBuffer.copyFromChannel n channel).
Proof.
  intros H0 H. unfold AudioBuffer.copyFromChannel. apply Forall_app. split.
  - change (firstn n channel) with (firstn n (skipn 0 channel)).
    now apply Forall_firstn_skipn.
  - apply Forall_forall. intros x Hx. apply repeat_spec in Hx. now subst.
Qed.

Lemma add_channel_length {R : Rounding} (sum channelData : Float32Array.t) :
  List.length channelData = List.length sum ->
  List.length (add_channel sum channelData) = List.length sum.
Proof.
  intros H. unfold add_channel. rewrite length_map, length_combine. lia.
Qed.

Lemma add_channels_length {R : Rounding} (n : nat) (channels : list (list Q)) :
  forall sum : Float32Array.t,
    List.length sum = n ->
    List.length
      (fold_left (fun sum channel => add_channel sum (AudioBuffer.copyFromChannel n channel))
         channels sum) = n.
Proof.
  induction channels as [|channel channels IH]; intros sum Hsum; [exact Hsum|].
  cbn [fold_left]. apply IH.
  rewrite add_channel_length; [exact Hsum|].
  rewrite copyFromChannel_length. now symmetry.
Qed.

(** X24: the downmix has one sample per frame of the buffer, whatever the
    lengths of the other channels. *)
Theorem downmixToMono_length {R : Rounding} (audioBuffer : AudioBuffer.t) :
  List.length (downmixToMono audioBuffer) = AudioBuffer.length audioBuffer.
Proof.
  unfold downmixToMono.
  destruct (Nat.eqb (AudioBuffer.numberOfChannels audioBuffer) 1).
  - apply copyFromChannel_length.
  - rewrite length_map. apply add_channels_length, repeat_length.
Qed.

(** X25: a buffer with one channel is copied as it is: no sample goes through
    the sum or the division. *)
Theorem downmixToMono_single_channel {R : Rounding} (audioBuffer : AudioBuffer.t) :
  AudioBuffer.otherChannels audioBuffer = [] ->
  downmixToMono audioBuffer = AudioBuffer.channel0 audioBuffer.
Proof.
  intros Hone. unfold downmixToMono, AudioBuffer.numberOfChannels, AudioBuffer.length.
  rewrite Hone. cbn [List.length Nat.eqb]. apply copyFromChannel_whole.
Qed.

Lemma downmixToMono_single_channel_witness :
  @downmixToMono exact_arith (AudioBuffer.mk 8000 [0.5; -0.25; 1]%Q [])
  = [0.5; -0.25; 1]%Q.
Proof.
  apply (@downmixToMono_single_channel exact_arith (AudioBuffer.mk 8000 [0.5; -0.25; 1]%Q [])).
  reflexivity.
Defined.






Lemma in_band_succ {R : Rounding} {L : RoundingLaws R} (k : Z) (s c : Q) :
  0 <= k ->
  (fl (inject_Z (k + 1)) == inject_Z (k + 1))%Q ->
  (fround (inject_Z (k + 1)) == inject_Z (k + 1))%Q ->
  (fround (- inject_Z (k + 1)) == - inject_Z (k + 1))%Q ->
  in_band k s -> in_band 1 c -> in_band (k + 1) (fround (fl (s + c))).
Proof.
  unfold in_band. intros Hk Hfl Hfr Hfrm [Hs1 Hs2] [Hc1 Hc2].
  change (inject_Z 1) with 1%Q in Hc1, Hc2.
  assert (Hlo : (- inject_Z (k + 1) <= s + c)%Q) by (rewrite inject_Z_plus; change (inject_Z 1) with 1%Q; lra).
  assert (Hhi : (s + c <= inject_Z (k + 1))%Q) by (rewrite inject_Z_plus; change (inject_Z 1) with 1%Q; lra).
  split.
  - rewrite <- Hfrm. apply fround_mono.
    rewrite <- Hfl, <- fl_opp. now apply fl_mono.
  - rewrite <- Hfr. apply fround_mono.
    rewrite <- Hfl. now apply fl_mono.
Qed.

Lemma add_channel_band {R : Rounding} {L : RoundingLaws R} (k : Z)
    (sum channelData : Float32Array.t) :
  0 <= k ->
  (fl (inject_Z (k + 1)) == inject_Z (k + 1))%Q ->
  (fround (inject_Z (k + 1)) == inject_Z (k + 1))%Q ->
  (fround (- inject_Z (k + 1)) == - inject_Z (k + 1))%Q ->
  Forall (in_band k) sum -> Forall (in_band 1) channelData ->
  Forall (in_band (k + 1)) (add_channel sum channelData).
Proof.
  intros Hk Hfl Hfr Hfrm Hsum. revert channelData.
  induction Hsum as [|s sum Hs Hsum IH]; intros channelData Hch; [constructor|].
  destruct Hch as [|c channelData Hc Hch]; [constructor|].
  unfold add_channel. cbn [combine map fst snd]. constructor.
  - now apply in_band_succ.
  - now apply IH.
Qed.

Lemma add_channels_band {R : Rounding} {L : RoundingLaws R} (n : nat) (limit : Z)
    (channels : list (list Q)) :
  (forall k : Z, 0 <= k <= limit ->
     (fl (inject_Z k) == inject_Z k)%Q
     /\ (fround (inject_Z k) == inject_Z k)%Q
     /\ (fround (- inject_Z k) == - inject_Z k)%Q) ->
  forall (k : Z) (sum : Float32Array.t),
    0 <= k -> k + Z.of_nat (List.length channels) <= limit ->
    Forall (in_band k) sum ->
    Forall (Forall (in_band 1)) channels ->
    Forall (in_band (k + Z.of_nat (List.length channels)))
      (fold_left (fun sum channel => add_channel sum (AudioBuffer.copyFromChannel n channel))
         channels sum).
Proof.
  intros Hexact.
  induction channels as [|channel channels IH]; intros k sum Hk Hlimit Hsum Hchannels.
  - cbn [fold_left List.length Z.of_nat]. now rewrite Z.add_0_r.
  - cbn [fold_left]. cbn [List.length] in Hlimit |- *.
    rewrite Nat2Z.inj_succ in Hlimit |- *.
    apply Forall_cons_iff in Hchannels. destruct Hchannels as [Hchannel Hchannels].
    replace (k + Z.succ (Z.of_nat (List.length channels)))
      with (k + 1 + Z.of_nat (List.length channels)) by lia.
    apply IH; [lia | lia | | exact Hchannels].
    destruct (Hexact (k + 1)) as (Hfl & Hfr & Hfrm); [lia|].
    apply add_channel_band; try assumption.
    apply copyFromChannel_Forall; [|exact Hchannel].
    unfold in_band. split; discriminate.
Qed.

(** X27: when every sample of every channel lies in [-1, 1], so does every
    sample of the downmix, for any rounding that is monotone and keeps the
    whole numbers up to the channel count. *)
Theorem downmixToMono_range {R : Rounding} {L : RoundingLaws R}
    (audioBuffer : AudioBuffer.t) :
  (forall k : Z, 0 <= k <= Z.of_nat (AudioBuffer.numberOfChannels audioBuffer) ->
     (fl (inject_Z k) == inject_Z k)%Q
     /\ (fround (inject_Z k) == inject_Z k)%Q
     /\ (fround (- inject_Z k) == - inject_Z k)%Q) ->
  Forall (Forall (fun x : Q => (-1 <= x <= 1)%Q)) (AudioBuffer.channels audioBuffer) ->
  Forall (fun x : Q => (-1 <= x <= 1)%Q) (downmixToMono audioBuffer).
Proof.
  intros Hexact Hchannels. unfold downmixToMono.
  destruct (Nat.eqb (AudioBuffer.numberOfChannels audioBuffer) 1).
  - apply copyFromChannel_Forall; [split; discriminate|].
    unfold AudioBuffer.channels in Hchannels.
    apply Forall_cons_iff in Hchannels. tauto.
  - set (n := AudioBuffer.numberOfChannels audioBuffer) in *.
    assert (Hn : n = List.length (AudioBuffer.channels audioBuffer)) by reflexivity.
    assert (Hpos : (0 < inject_Z (Z.of_nat n))%Q).
    { unfold n, AudioBuffer.numberOfChannels, inject_Z, Qlt. simpl. lia. }
    pose proof (add_channels_band (AudioBuffer.length audioBuffer) (Z.of_nat n)
                  (AudioBuffer.channels audioBuffer) Hexact 0
                  (repeat 0%Q (AudioBuffer.length audioBuffer))) as Hband.
    rewrite <- Hn in Hband. rewrite Z.add_0_l in Hband.
    assert (Hsum : Forall (in_band (Z.of_nat n))
              (fold_left
                 (fun sum channel =>
                    add_channel sum
                      (AudioBuffer.copyFromChannel (AudioBuffer.length audioBuffer) channel))
                 (AudioBuffer.channels audioBuffer)
                 (repeat 0%Q (AudioBuffer.length audioBuffer)))).
    { apply Hband; [lia | lia | | exact Hchannels].
      apply Forall_forall. intros x Hx. apply repeat_spec in Hx. subst x.
      split; discriminate. }
    clear Hband. apply Forall_map.
    eapply Forall_impl; [|exact Hsum].
    intros x [Hlo Hhi]. cbv beta.
    assert (Hq : (-1 <= x / inject_Z (Z.of_nat n) <= 1)%Q).
    { split.
      - apply Qle_shift_div_l; [exact Hpos | lra].
      - apply Qle_shift_div_r; [exact Hpos | lra]. }
    destruct Hq as [Hq1 Hq2]. split.
    + rewrite <- fround_m1. apply fround_mono.
      setoid_replace (-1)%Q with (- fl 1)%Q by (rewrite fl_1; reflexivity).
      rewrite <- fl_opp. now apply fl_mono.
    + rewrite <- fround_1. apply fround_mono.
      rewrite <- fl_1. now apply fl_mono.
Qed.

Lemma downmixToMono_range_witness :
  Forall (fun x : Q => (-1 <= x <= 1)%Q)
    (@downmixToMono exact_arith (AudioBuffer.mk 8000 [1; 0.5]%Q [[1; -0.25]%Q])).
Proof.
  apply (@downmixToMono_range exact_arith exact_arith_laws
           (AudioBuffer.mk 8000 [1; 0.5]%Q [[1; -0.25]%Q])).
  - intros k _. cbn [fl fround exact_arith]. split; [|split]; apply Qeq_refl.
  - unfold AudioBuffer.channels. cbn [AudioBuffer.channel0 AudioBuffer.otherChannels].
    apply Forall_cons; [| apply Forall_cons; [| apply Forall_nil]];
      (apply Forall_cons;
       [split; discriminate
       | apply Forall_cons; [split; discriminate | apply Forall_nil]]).
Defined.

(** ** The download name *)

Lemma not_slash_dot_plain (c : ascii) :
  c <> "/"%char -> c <> "."%char -> not_slash_dot c = true.
Proof.
  intros Hslash Hdot. unfold not_slash_dot.
  destruct (Ascii.eqb_spec c "/"); [contradiction|].
  destruct (Ascii.eqb_spec c "."); [contradiction|]. reflexivity.
Qed.

Lemma extension_tail_plain (s : string) :
  s <> EmptyString -> plain_name s -> extension_tail s = true.
Proof.
  induction s as [|c s IH]; intros Hne Hplain; [congruence|].
  cbn [extension_tail].
  destruct (Hplain c) as [Hslash Hdot]; [left; reflexivity|].
  rewrite (not_slash_dot_plain c Hslash Hdot). cbn [andb].
  destruct s as [|c' s]; [reflexivity|].
  apply IH; [discriminate|].
  intros x Hx. apply Hplain. right. exact Hx.
Qed.

Lemma extension_tail_dot (s : string) :
  In "."%char (chars s) -> extension_tail s = false.
Proof.
  induction s as [|c s IH]; intros Hin; [reflexivity|].
  cbn [extension_tail]. destruct Hin as [Hc|Hin].
  - subst c. reflexivity.
  - destruct s as [|c' s]; [destruct Hin|].
    rewrite (IH Hin). apply andb_false_r.
Qed.

Lemma chars_append (a b : string) : chars (a ++ b)%string = chars a ++ chars b.
Proof.
  induction a as [|c a IH]; [reflexivity|].
  unfold chars in *. cbn [String.append list_ascii_of_string]. now rewrite IH.
Qed.

Lemma strip_extension_last (base ext : string) :
  ext <> EmptyString -> plain_name ext ->
  strip_extension (base ++ String "." ext)%string = base.
Proof.
  intros Hne Hplain. induction base as [|c base IH].
  - cbn [String.append strip_extension]. rewrite (extension_tail_plain ext Hne Hplain).
    reflexivity.
  - cbn [String.append strip_extension].
    rewrite (extension_tail_dot (base ++ String "." ext)%string).
    + rewrite andb_false_r, IH. reflexivity.
    + rewrite chars_append. apply in_or_app. right. left. reflexivity.
Qed.

Lemma strip_extension_no_dot (name : string) :
  ~ In "."%char (chars name) -> strip_extension name = name.
Proof.
  induction name as [|c name IH]; intros Hno; [reflexivity|].
  cbn [strip_extension].
  destruct (Ascii.eqb_spec c ".") as [Hc|Hc].
  - exfalso. apply Hno. left. exact Hc.
  - cbn [andb]. rewrite IH; [reflexivity|].
    intros Hin. apply Hno. right. exact Hin.
Qed.

(** X28: for a file name that ends in a dot and a non-empty extension without
    dot or slash, the proposed download name is the name without that last
    extension, followed by [-processed.wav]; only the last extension goes. *)
Theorem enableDownload_strips_extension (href base ext : string) (link : download_link) :
  ext <> EmptyString -> plain_name ext ->
  link_download (enableDownload href (Some (base ++ String "." ext)%string) link)
  = Some (base ++ "-processed.wav")%string.
Proof.
  intros Hne Hplain. unfold enableDownload. cbn [link_download].
  assert (Hname : or_processed (Some (base ++ String "." ext)%string)
                  = (base ++ String "." ext)%string).
  { destruct base; reflexivity. }
  rewrite Hname, (strip_extension_last base ext Hne Hplain). reflexivity.
Qed.

Lemma enableDownload_strips_extension_witness :
  link_download
    (enableDownload "blob:1" (Some ("talk.final" ++ String "." "mp3")%string)
       (mk_link "#" None true))
  = Some ("talk.final" ++ "-processed.wav")%string.
Proof.
  apply (enableDownload_strips_extension "blob:1" "talk.final" "mp3" (mk_link "#" None true)).
  - discriminate.
  - intros c Hc. vm_compute in Hc.
    repeat (destruct Hc as [Hc|Hc]; [subst c; split; discriminate|]).
    destruct Hc.
Defined.

(** X29: a non-empty file name without a dot is kept whole in the proposed
    download name. *)
Theorem enableDownload_keeps_plain_name (href name : string) (link : download_link) :
  name <> EmptyString -> ~ In "."%char (chars name) ->
  link_download (enableDownload href (Some name) link)
  = Some (name ++ "-processed.wav")%string.
Proof.
  intros Hne Hno. unfold enableDownload. cbn [link_download].
  assert (Hname : or_processed (Some name) = name).
  { destruct name; [congruence | reflexivity]. }
  rewrite Hname, (strip_extension_no_dot name Hno). reflexivity.
Qed.

Lemma enableDownload_keeps_plain_name_witness :
  link_download (enableDownload "blob:1" (Some "memo"%string) (mk_link "#" None true))
  = Some ("memo" ++ "-processed.wav")%string.
Proof.
  apply (enableDownload_keeps_plain_name "blob:1" "memo" (mk_link "#" None true)).
  - discriminate.
  - intros Hc. vm_compute in Hc.
    repeat (destruct Hc as [Hc|Hc]; [discriminate|]).
    destruct Hc.
Defined.
